(** * BB84 quantum key distribution simulator: model and verification

    A shallow embedding of [app.py] (the Streamlit front end) and
    [bb84_qkd_simulation.py] (the standalone script).

    - Python integers are [Z]; a basis is the Python string ['Z'] or ['X'].
    - A Qiskit [QuantumCircuit(1, 1)] is the list of the instructions that
      were appended to it; [qc.copy()] followed by appends is list
      concatenation, so the original circuit is left untouched.
    - The [qasm_simulator] backend is an external library that works on
      binary64 amplitudes.  It is represented by an ideal reader: integer
      amplitudes, the Hadamard gate without its factor 1/sqrt 2, and the
      Born rule dividing by the squared norm.  The real backend departs
      from it within rounding distance of a probability threshold (a
      prepared 1 keeps a chance of about 4e-33 of being read 0), so no
      theorem here says which bit a measurement reads: the theorems are
      about what the code passes to the backend and does with the bits it
      gets back, and each call of [execute] is one backend draw.  Readings
      are evaluated in two concrete runs only, at variates of a quarter
      and three quarters, far from every threshold.
    - Randomness is explicit.  Python's [random] module and the backend's
      sampler are two generator states of one abstract generator
      [next : G -> Z * G]; code that draws threads the pair through a
      state-and-error monad, [None] standing for a raised exception
      ([IndexError], [ZeroDivisionError]).
    - [errors / len(key)] is Python's true division of two integers; it is
      modelled by the exact quotient in [Q].  The binary64 computation is
      given next to it, and the two are shown to take the same branch of
      [if qber > 0.15] for every key of up to 200 bits, the longest the
      front end can ask for. *)

From Stdlib Require Import PrimFloat.
From Stdlib Require Uint63.
From Stdlib Require Import String ZArith QArith List Bool Lia Lqa Sorted.
Import ListNotations.

Open Scope Z_scope.

(** ** Bits and bases *)

Definition Z_basis : string := "Z"%string.
Definition X_basis : string := "X"%string.

Definition is_bit (b : Z) : Prop := b = 0 \/ b = 1.
Definition is_basis (s : string) : Prop := s = Z_basis \/ s = X_basis.

(** ** One-qubit circuits and their ideal simulation *)

Inductive Instruction : Type :=
| XGate      (* qc.x(0) *)
| HGate      (* qc.h(0) *)
| Barrier    (* qc.barrier() *)
| Measure.   (* qc.measure(0, 0) *)

Definition QuantumCircuit : Type := list Instruction.

(** Amplitudes of |0> and |1>, up to a common positive factor. *)
Record Statevector : Type := { amp0 : Z; amp1 : Z }.

Definition ground : Statevector := {| amp0 := 1; amp1 := 0 |}.

Definition apply_x (s : Statevector) : Statevector :=
  {| amp0 := amp1 s; amp1 := amp0 s |}.

Definition apply_h (s : Statevector) : Statevector :=
  {| amp0 := amp0 s + amp1 s; amp1 := amp0 s - amp1 s |}.

Definition weight0 (s : Statevector) : Z := amp0 s * amp0 s.
Definition weight1 (s : Statevector) : Z := amp1 s * amp1 s.
Definition norm2 (s : Statevector) : Z := weight0 s + weight1 s.

(** The ideal reader turns a raw draw [r] into the uniform variate
    [u = (r mod 2^53) / 2^53] and reads 0 exactly when [u < P(0)], the Born
    probability of 0.  The real backend makes the same comparison on
    binary64 numbers. *)
Definition resolution : Z := 2 ^ 53.

Definition sample (s : Statevector) (r : Z) : Z :=
  if (r mod resolution) * norm2 s <? weight0 s * resolution then 0 else 1.

Definition collapse (s : Statevector) (outcome : Z) : Statevector :=
  if outcome =? 0 then {| amp0 := amp0 s; amp1 := 0 |}
  else {| amp0 := 0; amp1 := amp1 s |}.

(** ** The world: two generator states *)

Record World (G : Type) : Type := mkWorld
  { py_random : G;        (* state of Python's [random] module *)
    backend_random : G }. (* state of the simulator's sampler *)

Arguments mkWorld {G} _ _.
Arguments py_random {G} _.
Arguments backend_random {G} _.

(** State-and-error monad. *)
Definition M (G A : Type) : Type := World G -> option (A * World G).

Definition ret {G A} (a : A) : M G A := fun w => Some (a, w).

Definition bind {G A B} (m : M G A) (k : A -> M G B) : M G B :=
  fun w => match m w with
           | Some (a, w') => k a w'
           | None => None
           end.

Definition lift {G A} (o : option A) : M G A :=
  fun w => match o with Some a => Some (a, w) | None => None end.

Declare Scope m_scope.
Delimit Scope m_scope with m.
Notation "x <- c1 ;; c2" := (bind c1 (fun x => c2))
  (at level 61, c1 at next level, right associativity) : m_scope.
Notation "' pat <- c1 ;; c2" := (bind c1 (fun x => match x with pat => c2 end))
  (at level 61, pat pattern, c1 at next level, right associativity) : m_scope.

(** [[f(x) for x in xs]] and the body of a [for] loop that appends one
    value per iteration. *)
Fixpoint for_each {G A B} (f : A -> M G B) (xs : list A) : M G (list B) :=
  match xs with
  | [] => ret []
  | x :: rest =>
      (y <- f x ;; ys <- for_each f rest ;; ret (y :: ys))%m
  end.

(** [range(n)]: empty when [n <= 0]. *)
Definition range (n : Z) : list nat := seq 0 (Z.to_nat n).

(** [enumerate(xs)]. *)
Definition enumerate {A} (xs : list A) : list (nat * A) :=
  combine (seq 0 (length xs)) xs.

(** [xs[i]] for [i >= 0]; [None] is [IndexError]. *)
Definition index {A} (xs : list A) (i : nat) : option A := nth_error xs i.

Section Generator.

Context {G : Type} (next : G -> Z * G).

(** One raw draw from Python's [random] module. *)
Definition py_draw : M G Z :=
  fun w => let (r, g) := next (py_random w) in
           Some (r, mkWorld g (backend_random w)).

(** One raw draw from the backend's sampler. *)
Definition backend_draw : M G Z :=
  fun w => let (r, g) := next (backend_random w) in
           Some (r, mkWorld (py_random w) g).

(** [random.randint(a, b)]. *)
Definition randint (a b : Z) : M G Z :=
  (r <- py_draw ;; ret (a + r mod (b - a + 1)))%m.

(** [random.choice(seq)]. *)
Definition choice {A} (seq : list A) : M G A :=
  (r <- py_draw ;;
   lift (index seq (Z.to_nat (r mod Z.of_nat (length seq)))))%m.

(** Running the instructions of a circuit on the state vector [s] and the
    one-bit classical register [c]. *)
Fixpoint run_instructions (qc : QuantumCircuit) (s : Statevector) (c : Z)
  : M G Z :=
  match qc with
  | [] => ret c
  | XGate :: rest => run_instructions rest (apply_x s) c
  | HGate :: rest => run_instructions rest (apply_h s) c
  | Barrier :: rest => run_instructions rest s c
  | Measure :: rest =>
      (r <- backend_draw ;;
       let outcome := sample s r in
       run_instructions rest (collapse s outcome) outcome)%m
  end.

(** [int(execute(qc, backend, shots=1, memory=True).result().get_memory()[0])] *)
Definition execute (qc : QuantumCircuit) : M G Z :=
  run_instructions qc ground 0.

End Generator.

(** ** Functions shared by both files *)

(** [encode_qubits]: the circuit built for one [(bit, base)] pair. *)
Definition encode_qubit (bit : Z) (base : string) : QuantumCircuit :=
  (if bit =? 1 then [XGate] else []) ++
  (if String.eqb base X_basis then [HGate] else []).

Definition encode_qubits (bits : list Z) (bases : list string)
  : list QuantumCircuit :=
  map (fun '(bit, base) => encode_qubit bit base) (combine bits bases).

(** The instructions appended to a copy before it is executed. *)
Definition measure_in (base : string) : QuantumCircuit :=
  (if String.eqb base X_basis then [HGate] else []) ++ [Measure].

Section Measurement.

Context {G : Type} (next : G -> Z * G).

(** [measure_qubits], identical in both files. *)
Definition measure_qubits (circuits : list QuantumCircuit)
  (bob_bases : list string) : M G (list Z) :=
  for_each (fun '(i, qc) =>
              (base <- lift (index bob_bases i) ;;
               execute next (qc ++ measure_in base))%m)
           (enumerate circuits).

End Measurement.

(** Python's [a / b] on integers; [None] is [ZeroDivisionError]. *)
Definition truediv (a b : Z) : option Q :=
  if b =? 0 then None else Some (a # Z.to_pos b).

(** [sum(a != b for a, b in zip(key_a, key_b))] *)
Definition count_errors (key_a key_b : list Z) : Z :=
  fold_right Z.add 0
    (map (fun '(a, b) => if a =? b then 0 else 1) (combine key_a key_b)).

(** [calculate_qber], identical in both files. *)
Definition calculate_qber (key_a key_b : list Z) : option Q :=
  let errors := count_errors key_a key_b in
  match key_a with
  | [] => Some 0%Q
  | _ :: _ => truediv errors (Z.of_nat (length key_a))
  end.

(** The two branches of [if qber > 0.15]. *)
Inductive Verdict : Type :=
| EavesdroppingSuspected   (* "High QBER!" *)
| SecureLikely.            (* "Low QBER." *)

Definition threshold : Q := 15 # 100.

(** Python's [a > b] on the two quotients. *)
Definition Qgtb (a b : Q) : bool := negb (Qle_bool a b).

Definition classify (qber : Q) : Verdict :=
  if Qgtb qber threshold then EavesdroppingSuspected else SecureLikely.

(** The same on binary64 floats, as Python computes it: the quotient of two
    integers is correctly rounded, and the literal [0.15] denotes the
    double nearest to 15/100. *)
Definition float_of_int (z : Z) : float := of_uint63 (Uint63.of_Z z).

Definition float_qber (errors len : Z) : float :=
  PrimFloat.div (float_of_int errors) (float_of_int len).

Definition float_threshold : float := 0x1.3333333333333p-3%float.

Definition float_classify (errors len : Z) : Verdict :=
  if PrimFloat.ltb float_threshold (float_qber errors len)
  then EavesdroppingSuspected else SecureLikely.

(** A [for] loop over indices that updates an accumulator and may raise. *)
Fixpoint for_loop {S} (body : S -> nat -> option S) (idxs : list nat)
  (acc : S) : option S :=
  match idxs with
  | [] => Some acc
  | i :: rest =>
      match body acc i with
      | Some acc' => for_loop body rest acc'
      | None => None
      end
  end.

(** ** [app.py] *)

Module App.

(** Body of the loop of [sift_keys]. *)
Definition sift_body (alice_bases bob_bases : list string)
  (alice_bits bob_bits : list Z) (acc : list Z * list Z) (i : nat)
  : option (list Z * list Z) :=
  let '(sifted_a, sifted_b) := acc in
  match index alice_bases i, index bob_bases i with
  | Some a, Some b =>
      if String.eqb a b then
        match index alice_bits i, index bob_bits i with
        | Some x, Some y => Some (sifted_a ++ [x], sifted_b ++ [y])
        | _, _ => None
        end
      else Some acc
  | _, _ => None
  end.

Definition sift_keys (alice_bases bob_bases : list string)
  (alice_bits bob_bits : list Z) : option (list Z * list Z) :=
  for_loop (sift_body alice_bases bob_bases alice_bits bob_bits)
           (range (Z.of_nat (length alice_bits))) ([], []).

(** What the "Run Simulation" handler computes before rendering. *)
Record Result : Type := mkResult
  { alice_bits : list Z;
    alice_bases : list string;
    bob_bases : list string;
    bob_results : list Z;
    key_a : list Z;
    key_b : list Z;
    qber : Q;
    verdict : Verdict }.

Section Gen.

Context {G : Type} (next : G -> Z * G).

Definition create_bits_bases (n : Z) : M G (list Z * list string) :=
  (bits <- for_each (fun _ => randint next 0 1) (range n) ;;
   bases <- for_each (fun _ => choice next [Z_basis; X_basis]) (range n) ;;
   ret (bits, bases))%m.

Definition eve_intercept (circuits : list QuantumCircuit)
  : M G (list QuantumCircuit) :=
  (eve_bases <- for_each (fun _ => choice next [Z_basis; X_basis])
                         (range (Z.of_nat (length circuits))) ;;
   for_each (fun '(i, qc) =>
               (base <- lift (index eve_bases i) ;;
                result <- execute next
                            (qc ++
                             (if String.eqb base X_basis then [HGate] else [])
                             ++ [Measure]) ;;
                base' <- lift (index eve_bases i) ;;
                ret ((if result =? 1 then [XGate] else []) ++
                     (if String.eqb base' X_basis then [HGate] else [])))%m)
            (enumerate circuits))%m.

(** The body of [if st.button("Run Simulation")], lines 107-129. *)
Definition run_simulation (n : Z) (eve_present : bool) : M G Result :=
  ('(alice_bits, alice_bases) <- create_bits_bases n ;;
   bob_bases <- for_each (fun _ => choice next [Z_basis; X_basis]) (range n) ;;
   let encoded := encode_qubits alice_bits alice_bases in
   intercepted <- (if eve_present then eve_intercept encoded else ret encoded) ;;
   bob_results <- measure_qubits next intercepted bob_bases ;;
   '(key_a, key_b) <- lift (sift_keys alice_bases bob_bases alice_bits bob_results) ;;
   qber <- lift (calculate_qber key_a key_b) ;;
   ret (mkResult alice_bits alice_bases bob_bases bob_results
                 key_a key_b qber (classify qber)))%m.

End Gen.

End App.

(** ** [bb84_qkd_simulation.py] *)

Module Script.

Definition sift_body (alice_bases bob_bases : list string)
  (alice_bits bob_bits : list Z) (acc : list Z * list Z * list nat) (i : nat)
  : option (list Z * list Z * list nat) :=
  let '(sifted_alice, sifted_bob, indices) := acc in
  match index alice_bases i, index bob_bases i with
  | Some a, Some b =>
      if String.eqb a b then
        match index alice_bits i, index bob_bits i with
        | Some x, Some y =>
            Some (sifted_alice ++ [x], sifted_bob ++ [y], indices ++ [i])
        | _, _ => None
        end
      else Some acc
  | _, _ => None
  end.

Definition sift_keys (alice_bases bob_bases : list string)
  (alice_bits bob_bits : list Z) : option (list Z * list Z * list nat) :=
  for_loop (sift_body alice_bases bob_bases alice_bits bob_bits)
           (range (Z.of_nat (length alice_bits))) ([], [], []).

Record Result : Type := mkResult
  { alice_bits : list Z;
    alice_bases : list string;
    eve_bases : list string;
    bob_bases : list string;
    bob_results : list Z;
    alice_key : list Z;
    bob_key : list Z;
    indices : list nat;
    qber : Q;
    verdict : Verdict }.

Section Gen.

Context {G : Type} (next : G -> Z * G).

Definition create_alice_bits (n : Z) : M G (list Z * list string) :=
  (bits <- for_each (fun _ => randint next 0 1) (range n) ;;
   bases <- for_each (fun _ => choice next [Z_basis; X_basis]) (range n) ;;
   ret (bits, bases))%m.

Definition eve_intercept (circuits : list QuantumCircuit)
  : M G (list QuantumCircuit * list string) :=
  (eve_bases <- for_each (fun _ => choice next [Z_basis; X_basis])
                         (range (Z.of_nat (length circuits))) ;;
   new_circuits <-
     for_each (fun '(i, qc) =>
                 (base <- lift (index eve_bases i) ;;
                  result <- execute next
                              (qc ++ [Barrier] ++
                               (if String.eqb base X_basis then [HGate] else [])
                               ++ [Measure]) ;;
                  base' <- lift (index eve_bases i) ;;
                  ret ((if result =? 1 then [XGate] else []) ++
                       (if String.eqb base' X_basis then [HGate] else [])))%m)
              (enumerate circuits) ;;
   ret (new_circuits, eve_bases))%m.

(** [main], lines 105-123, for any value of its local [n]. *)
Definition main_with (n : Z) : M G Result :=
  ('(alice_bits, alice_bases) <- create_alice_bits n ;;
   let circuits := encode_qubits alice_bits alice_bases in
   '(eve_circuits, eve_bases) <- eve_intercept circuits ;;
   bob_bases <- for_each (fun _ => choice next [Z_basis; X_basis]) (range n) ;;
   bob_results <- measure_qubits next eve_circuits bob_bases ;;
   '(alice_key, bob_key, indices) <-
      lift (sift_keys alice_bases bob_bases alice_bits bob_results) ;;
   qber <- lift (calculate_qber alice_key bob_key) ;;
   ret (mkResult alice_bits alice_bases eve_bases bob_bases bob_results
                 alice_key bob_key indices qber (classify qber)))%m.

Definition main : M G Result := main_with 100.

End Gen.

End Script.

(** ** A replayable generator for concrete runs

    The state is the list of draws still to come; an exhausted list keeps
    producing 0. *)
Definition replay (g : list Z) : Z * list Z :=
  match g with
  | [] => (0, [])
  | r :: rest => (r, rest)
  end.

(** ** Vocabulary of the statements *)

(** The element of [['Z', 'X']] that a raw draw selects. *)
Definition pick_basis (r : Z) : string :=
  if r mod 2 =? 0 then Z_basis else X_basis.

(** Trial [i] has a sender basis and a receiver basis, and they are equal. *)
Definition bases_agree (alice_bases bob_bases : list string) (i : nat) : bool :=
  match nth_error alice_bases i, nth_error bob_bases i with
  | Some a, Some b => String.eqb a b
  | _, _ => false
  end.

(** Following the spec's words: the trials kept by sifting, in trial order. *)
Definition sifted_trials (alice_bases bob_bases : list string) (n : nat)
  : list nat :=
  filter (bases_agree alice_bases bob_bases) (seq 0 n).

(** Following the spec's words: the number of positions below [len key_a]
    at which the two keys do not hold the same bit. *)
Definition disagreements (key_a key_b : list Z) : nat :=
  length (filter (fun i => negb (Z.eqb (nth i key_a 0) (nth i key_b 0)))
                 (seq 0 (length key_a))).

Section Streams.

Context {G : Type} (next : G -> Z * G).

(** The first [k] draws of a generator state, and the state they leave. *)
Fixpoint draws (g : G) (k : nat) : list Z :=
  match k with
  | O => []
  | S k' => fst (next g) :: draws (snd (next g)) k'
  end.

Fixpoint advance (g : G) (k : nat) : G :=
  match k with
  | O => g
  | S k' => advance (snd (next g)) k'
  end.

(** [measured_each circuits bases w results w']: starting in world [w],
    circuit after circuit is measured in the basis at the same position,
    giving [results] and leaving world [w']. *)
Inductive measured_each
  : list QuantumCircuit -> list string -> World G -> list Z -> World G -> Prop :=
| measured_nil w : measured_each [] [] w [] w
| measured_cons qc b r qcs bs rs w w1 w2 :
    execute next (qc ++ measure_in b) w = Some (r, w1) ->
    measured_each qcs bs w1 rs w2 ->
    measured_each (qc :: qcs) (b :: bs) w (r :: rs) w2.

(** One interception: measure in the chosen basis, prepare what was read. *)
Definition resend (qc : QuantumCircuit) (b : string) : M G QuantumCircuit :=
  (result <- execute next (qc ++ measure_in b) ;; ret (encode_qubit result b))%m.

End Streams.

(** Two generator states, possibly of different generators, that produce
    the same sequence of draws. *)
Definition same_draws {G1 G2 : Type} (next1 : G1 -> Z * G1)
  (next2 : G2 -> Z * G2) (g1 : G1) (g2 : G2) : Prop :=
  forall k, draws next1 g1 k = draws next2 g2 k.

Definition same_world {G1 G2 : Type} (next1 : G1 -> Z * G1)
  (next2 : G2 -> Z * G2) (w1 : World G1) (w2 : World G2) : Prop :=
  same_draws next1 next2 (py_random w1) (py_random w2) /\
  same_draws next1 next2 (backend_random w1) (backend_random w2).

(** Two computations that, from worlds with the same draws, both raise or
    return the same value and leave worlds with the same draws. *)
Definition agree {G1 G2 A : Type} (next1 : G1 -> Z * G1)
  (next2 : G2 -> Z * G2) (m1 : M G1 A) (m2 : M G2 A) : Prop :=
  forall w1 w2,
    same_world next1 next2 w1 w2 ->
    match m1 w1, m2 w2 with
    | Some (a1, w1'), Some (a2, w2') =>
        a1 = a2 /\ same_world next1 next2 w1' w2'
    | None, None => True
    | _, _ => False
    end.

(** The value of a computation, forgetting the world it leaves. *)
Definition value {G A} (m : M G A) (w : World G) : option A :=
  option_map fst (m w).

Definition Verdict_eqb (a b : Verdict) : bool :=
  match a, b with
  | EavesdroppingSuspected, EavesdroppingSuspected => true
  | SecureLikely, SecureLikely => true
  | _, _ => false
  end.

(** The float and the rational classification agree for every key length
    from [1] to [bound] and every error count from [0] to the length. *)
Definition classifications_agree_upto (bound : nat) : bool :=
  forallb (fun len =>
             forallb (fun errors =>
                        Verdict_eqb
                          (float_classify (Z.of_nat errors) (Z.of_nat len))
                          (classify (Z.of_nat errors # Pos.of_nat len)))
                     (seq 0 (S len)))
          (seq 1 bound).

(** ** A concrete scenario

    The one of the specification: four trials, sender bits 0 1 1 0, sender
    bases Z Z X X, receiver bases Z X X Z. *)

Definition scenario_bits : list Z := [0; 1; 1; 0].
Definition scenario_alice : list string := [Z_basis; Z_basis; X_basis; X_basis].
Definition scenario_bob : list string := [Z_basis; X_basis; X_basis; Z_basis].

(** Draws that make Python's generator produce the scenario, followed by
    the draws of an eavesdropper who picks X Z X X, and eight backend
    draws. *)
Definition scenario_world : World (list Z) :=
  mkWorld [0; 1; 1; 0; 0; 0; 1; 1; 0; 1; 1; 0; 1; 0; 1; 1]
          [3; 2 ^ 52; 0; 0; 2 ^ 52; 0; 0; 0].


(** Following the spec's words: the preparation of a qubit that encodes
    [bit] in [basis], one of the four BB84 states. *)
Definition preparation (bit : Z) (basis : string) : QuantumCircuit :=
  match bit =? 1, String.eqb basis X_basis with
  | false, false => []
  | true, false => [XGate]
  | false, true => [HGate]
  | true, true => [XGate; HGate]
  end.

(** The scenario's draws of Python's generator, as a fixed seed gives
    them, with two lists of backend draws that differ in the fifth one.
    All of them are variates far from 0, 1/2 and 1 (a quarter or three
    quarters), where the bit read does not depend on rounding. *)
Definition quarter : Z := 2 ^ 51.
Definition three_quarters : Z := 3 * 2 ^ 51.

Definition seeded_world_a : World (list Z) :=
  mkWorld (py_random scenario_world)
          [quarter; quarter; quarter; quarter;
           quarter; quarter; quarter; quarter].

Definition seeded_world_b : World (list Z) :=
  mkWorld (py_random scenario_world)
          [quarter; quarter; quarter; quarter;
           three_quarters; quarter; quarter; quarter].

(** ** Vocabulary of the further properties *)

(** What [encode_qubits] makes of an integer: only [1] sets the qubit. *)
Definition as_bit (b : Z) : Z := if b =? 1 then 1 else 0.

(** The two bar heights of [plot_qber_bar], identical in both files:
    [correct = 100 * (1 - qber)] and [incorrect = 100 * qber]. *)
Definition qber_bars (qber : Q) : Q * Q :=
  ((100 * (1 - qber))%Q, (100 * qber)%Q).

(** A short receiver record for the scenario: the last bit is missing, and
    the last trial is not kept. *)
Definition scenario_short_bob_bits : list Z := [0; 0; 1].

(** * Verification *)

(** ** The reader *)

Lemma resolution_pos : 0 < resolution.
Proof. reflexivity. Qed.

Lemma variate_bound (r : Z) : 0 <= r mod resolution < resolution.
Proof. apply Z.mod_pos_bound, resolution_pos. Qed.

Lemma sample_is_bit (s : Statevector) (r : Z) : is_bit (sample s r).
Proof.
  unfold sample, is_bit.
  destruct (_ <? _); [left | right]; reflexivity.
Qed.

(** ** One draw *)

Section SingleQubit.

Context {G : Type} (next : G -> Z * G).

Let after_shot (w : World G) : World G :=
  mkWorld (py_random w) (snd (next (backend_random w))).

Lemma backend_draw_eq (w : World G) :
  backend_draw next w = Some (fst (next (backend_random w)), after_shot w).
Proof.
  unfold backend_draw, after_shot. now destruct (next (backend_random w)).
Qed.

Lemma py_draw_eq (w : World G) :
  py_draw next w =
  Some (fst (next (py_random w)),
        mkWorld (snd (next (py_random w))) (backend_random w)).
Proof.
  unfold py_draw. now destruct (next (py_random w)).
Qed.

End SingleQubit.

(** ** Loops *)

Section Loops.

Context {G : Type}.

Lemma bind_some {A B} (m : M G A) (k : A -> M G B) (w w' : World G) (a : A) :
  m w = Some (a, w') -> bind m k w = k a w'.
Proof. intros H. unfold bind. now rewrite H. Qed.

(** A loop over [enumerate(xs)] that reads [bs[i]] is a loop over
    [zip(xs, bs)] as long as [bs] is long enough. *)
Lemma for_each_enumerate {A B C} (f : nat -> A -> M G C) (g : A -> B -> M G C)
  (xs : list A) :
  forall (bs : list B) (k : nat),
    (length xs <= length bs)%nat ->
    (forall j x b w, nth_error bs j = Some b -> f (k + j)%nat x w = g x b w) ->
    forall w,
      for_each (fun '(i, x) => f i x) (combine (seq k (length xs)) xs) w =
      for_each (fun '(x, b) => g x b) (combine xs bs) w.
Proof.
  induction xs as [| x xs IH]; intros bs k Hlen Hfg w.
  - reflexivity.
  - destruct bs as [| b bs]; [simpl in Hlen; lia |].
    simpl. unfold bind.
    rewrite <- (Hfg 0%nat x b w eq_refl), Nat.add_0_r.
    destruct (f k x w) as [[y w1] |]; [| reflexivity].
    rewrite (IH bs (S k)); [reflexivity | simpl in Hlen; lia |].
    intros j x' b' w' Hj. rewrite <- (Hfg (S j) x' b' w' Hj).
    f_equal. lia.
Qed.

(** When some index is out of range the loop raises. *)
Lemma for_each_enumerate_short {A B C} (f : nat -> A -> M G C) (xs : list A) :
  forall (bs : list B) (k : nat),
    (length bs < length xs)%nat ->
    (forall j x w, nth_error bs j = None -> f (k + j)%nat x w = None) ->
    forall w,
      for_each (fun '(i, x) => f i x) (combine (seq k (length xs)) xs) w = None.
Proof.
  induction xs as [| x xs IH]; intros bs k Hlen Hf w.
  - simpl in Hlen. lia.
  - simpl. unfold bind. destruct bs as [| b bs].
    + rewrite <- (Nat.add_0_r k) at 1. now rewrite (Hf 0%nat x w eq_refl).
    + destruct (f k x w) as [[y w1] |]; [| reflexivity].
      rewrite (IH bs (S k)); [reflexivity | simpl in Hlen; lia |].
      intros j x' w' Hj. rewrite <- (Hf (S j) x' w' Hj). f_equal. lia.
Qed.

End Loops.

(** ** Draws from Python's generator *)

Section Draws.

Context {G : Type} (next : G -> Z * G).

Lemma draws_length (g : G) (k : nat) : length (draws next g k) = k.
Proof. revert g. induction k; intros g; simpl; auto. Qed.

Lemma advance_add (g : G) (j k : nat) :
  advance next g (j + k) = advance next (advance next g j) k.
Proof. revert g. induction j; intros g; simpl; auto. Qed.

Lemma pick_basis_is_basis (r : Z) : is_basis (pick_basis r).
Proof. unfold pick_basis, is_basis. destruct (_ =? _); auto. Qed.

Lemma randint_bit (w : World G) :
  randint next 0 1 w =
  Some (fst (next (py_random w)) mod 2,
        mkWorld (snd (next (py_random w))) (backend_random w)).
Proof.
  unfold randint, bind. rewrite py_draw_eq. reflexivity.
Qed.

Lemma choice_basis (w : World G) :
  choice next [Z_basis; X_basis] w =
  Some (pick_basis (fst (next (py_random w))),
        mkWorld (snd (next (py_random w))) (backend_random w)).
Proof.
  unfold choice, bind. rewrite py_draw_eq.
  change (Z.of_nat (length [Z_basis; X_basis])) with 2.
  unfold pick_basis. set (r := fst (next (py_random w))).
  pose proof (Z.mod_pos_bound r 2 eq_refl) as Hr.
  destruct (Z.eqb_spec (r mod 2) 0) as [E | E].
  - rewrite E. reflexivity.
  - replace (r mod 2) with 1 by lia. reflexivity.
Qed.

Lemma for_each_randint {A} (xs : list A) :
  forall w,
    for_each (fun _ => randint next 0 1) xs w =
    Some (map (fun r => r mod 2) (draws next (py_random w) (length xs)),
          mkWorld (advance next (py_random w) (length xs)) (backend_random w)).
Proof.
  induction xs as [| x xs IH]; intros w.
  - now destruct w.
  - simpl. unfold bind. rewrite randint_bit, IH. reflexivity.
Qed.

Lemma for_each_choice {A} (xs : list A) :
  forall w,
    for_each (fun _ => choice next [Z_basis; X_basis]) xs w =
    Some (map pick_basis (draws next (py_random w) (length xs)),
          mkWorld (advance next (py_random w) (length xs)) (backend_random w)).
Proof.
  induction xs as [| x xs IH]; intros w.
  - now destruct w.
  - simpl. unfold bind. rewrite choice_basis, IH. reflexivity.
Qed.

Lemma drawn_bits (g : G) (k : nat) :
  Forall is_bit (map (fun r => r mod 2) (draws next g k)).
Proof.
  revert g. induction k as [| k IH]; intros g; simpl; constructor.
  - pose proof (Z.mod_pos_bound (fst (next g)) 2 eq_refl). unfold is_bit. lia.
  - apply IH.
Qed.

Lemma drawn_bases (g : G) (k : nat) :
  Forall is_basis (map pick_basis (draws next g k)).
Proof.
  revert g. induction k as [| k IH]; intros g; simpl; constructor.
  - apply pick_basis_is_basis.
  - apply IH.
Qed.

Lemma range_length (n : Z) : length (range n) = Z.to_nat n.
Proof. unfold range. apply length_seq. Qed.

End Draws.

(** ** Measuring a list of circuits *)

Section PreparedQubits.

Context {G : Type} (next : G -> Z * G).

Lemma measure_qubits_zip (circuits : list QuantumCircuit) (bob : list string) :
  (length circuits <= length bob)%nat ->
  forall w,
    measure_qubits next circuits bob w =
    for_each (fun '(qc, b) => execute next (qc ++ measure_in b))
             (combine circuits bob) w.
Proof.
  intros Hlen w. unfold measure_qubits, enumerate.
  apply (for_each_enumerate
           (fun i qc => (base <- lift (index bob i) ;;
                         execute next (qc ++ measure_in base))%m)
           (fun qc b => execute next (qc ++ measure_in b))
           circuits bob 0%nat Hlen).
  intros j qc b w' Hj. unfold bind, lift, index. simpl. now rewrite Hj.
Qed.

Lemma measure_qubits_short (circuits : list QuantumCircuit) (bob : list string) :
  (length bob < length circuits)%nat ->
  forall w, measure_qubits next circuits bob w = None.
Proof.
  intros Hlen w. unfold measure_qubits, enumerate.
  apply (for_each_enumerate_short
           (fun i qc => (base <- lift (index bob i) ;;
                         execute next (qc ++ measure_in base))%m)
           circuits bob 0%nat Hlen).
  intros j qc w' Hj. unfold bind, lift, index. simpl. now rewrite Hj.
Qed.

Lemma encode_qubits_length (bits : list Z) (bases : list string) :
  length bits = length bases ->
  length (encode_qubits bits bases) = length bits.
Proof.
  intros H. unfold encode_qubits. rewrite length_map, length_combine. lia.
Qed.

End PreparedQubits.

(** ** Sifting *)

Section Sifting.

Variables (alice_bases bob_bases : list string) (alice_bits bob_bits : list Z).

Let n : nat := length alice_bits.
Let kept (idxs : list nat) : list nat :=
  filter (bases_agree alice_bases bob_bases) idxs.
Let a_at (i : nat) : Z := nth i alice_bits 0.
Let b_at (i : nat) : Z := nth i bob_bits 0.

Hypothesis Halice : length alice_bases = n.
Hypothesis Hbob : length bob_bases = n.
Hypothesis Hbits : length bob_bits = n.

Lemma bases_agree_at (i : nat) :
  (i < n)%nat ->
  exists a b, nth_error alice_bases i = Some a /\
              nth_error bob_bases i = Some b /\
              bases_agree alice_bases bob_bases i = String.eqb a b.
Proof.
  intros Hi.
  destruct (nth_error alice_bases i) as [a |] eqn:Ea;
    [| apply nth_error_None in Ea; lia].
  destruct (nth_error bob_bases i) as [b |] eqn:Eb;
    [| apply nth_error_None in Eb; lia].
  exists a, b. unfold bases_agree. now rewrite Ea, Eb.
Qed.

Lemma script_sift_loop (idxs : list nat) :
  Forall (fun i => (i < n)%nat) idxs ->
  forall sa sb ix,
    for_loop (Script.sift_body alice_bases bob_bases alice_bits bob_bits)
             idxs (sa, sb, ix) =
    Some (sa ++ map a_at (kept idxs), sb ++ map b_at (kept idxs),
          ix ++ kept idxs).
Proof.
  induction idxs as [| i idxs IH]; intros Hall sa sb ix.
  - simpl. now rewrite !app_nil_r.
  - inversion Hall as [| ? ? Hi Hrest]; subst.
    destruct (bases_agree_at i Hi) as (a & b & Ea & Eb & Eag).
    simpl. unfold index. rewrite Ea, Eb.
    unfold kept. simpl. rewrite Eag.
    destruct (String.eqb a b).
    + rewrite (nth_error_nth' alice_bits 0) by exact Hi.
      rewrite (nth_error_nth' bob_bits 0) by lia.
      rewrite IH by assumption. simpl.
      now rewrite <- !app_assoc.
    + now rewrite IH.
Qed.

Lemma app_sift_loop (idxs : list nat) :
  Forall (fun i => (i < n)%nat) idxs ->
  forall sa sb,
    for_loop (App.sift_body alice_bases bob_bases alice_bits bob_bits)
             idxs (sa, sb) =
    Some (sa ++ map a_at (kept idxs), sb ++ map b_at (kept idxs)).
Proof.
  induction idxs as [| i idxs IH]; intros Hall sa sb.
  - simpl. now rewrite !app_nil_r.
  - inversion Hall as [| ? ? Hi Hrest]; subst.
    destruct (bases_agree_at i Hi) as (a & b & Ea & Eb & Eag).
    simpl. unfold index. rewrite Ea, Eb.
    unfold kept. simpl. rewrite Eag.
    destruct (String.eqb a b).
    + rewrite (nth_error_nth' alice_bits 0) by exact Hi.
      rewrite (nth_error_nth' bob_bits 0) by lia.
      rewrite IH by assumption. simpl.
      now rewrite <- !app_assoc.
    + now rewrite IH.
Qed.

Lemma range_len_below :
  Forall (fun i => (i < n)%nat) (range (Z.of_nat (length alice_bits))).
Proof.
  unfold range. rewrite Nat2Z.id. apply Forall_forall.
  intros i Hi. apply in_seq in Hi. unfold n. lia.
Qed.

Lemma script_sift_keys_eq :
  Script.sift_keys alice_bases bob_bases alice_bits bob_bits =
  Some (map a_at (sifted_trials alice_bases bob_bases n),
        map b_at (sifted_trials alice_bases bob_bases n),
        sifted_trials alice_bases bob_bases n).
Proof.
  unfold Script.sift_keys. rewrite script_sift_loop by apply range_len_below.
  unfold kept, range, sifted_trials, n. now rewrite Nat2Z.id.
Qed.

Lemma app_sift_keys_eq :
  App.sift_keys alice_bases bob_bases alice_bits bob_bits =
  Some (map a_at (sifted_trials alice_bases bob_bases n),
        map b_at (sifted_trials alice_bases bob_bases n)).
Proof.
  unfold App.sift_keys. rewrite app_sift_loop by apply range_len_below.
  unfold kept, range, sifted_trials, n. now rewrite Nat2Z.id.
Qed.

Lemma sifted_trials_iff (i : nat) :
  In i (sifted_trials alice_bases bob_bases n) <->
  (i < n)%nat /\ nth_error alice_bases i = nth_error bob_bases i.
Proof.
  unfold sifted_trials. rewrite filter_In, in_seq. split.
  - intros [Hi Hag]. assert (Hlt : (i < n)%nat) by lia.
    split; [exact Hlt |].
    destruct (bases_agree_at i Hlt) as (a & b & Ea & Eb & Eag).
    rewrite Eag in Hag. apply String.eqb_eq in Hag. congruence.
  - intros [Hlt Heq]. split; [lia |].
    destruct (bases_agree_at i Hlt) as (a & b & Ea & Eb & Eag).
    rewrite Eag. apply String.eqb_eq. congruence.
Qed.

End Sifting.

Lemma seq_strongly_sorted (len start : nat) :
  StronglySorted lt (seq start len).
Proof.
  revert start. induction len as [| len IH]; intros start; simpl.
  - constructor.
  - constructor; [apply IH |].
    apply Forall_forall. intros j Hj. apply in_seq in Hj. lia.
Qed.

Lemma filter_strongly_sorted {A} (R : A -> A -> Prop) (f : A -> bool)
  (l : list A) :
  StronglySorted R l -> StronglySorted R (filter f l).
Proof.
  induction 1 as [| a l Hs IH Hall]; simpl.
  - constructor.
  - destruct (f a); [| exact IH].
    constructor; [exact IH |].
    apply Forall_forall. intros x Hx. apply filter_In in Hx.
    rewrite Forall_forall in Hall. now apply Hall.
Qed.

Lemma sifted_trials_length (alice_bases bob_bases : list string) (n : nat) :
  (length (sifted_trials alice_bases bob_bases n) <= n)%nat.
Proof.
  unfold sifted_trials.
  rewrite <- (length_seq n 0) at 2. apply filter_length_le.
Qed.

(** C2. Sifting correctness: on records of equal length both [sift_keys]
    return the sender and receiver bits of the trials in [kept], and the
    script returns [kept] itself, where [kept] holds exactly the trial
    indices below [n] at which the two end parties' bases are equal, in
    increasing order, and is no longer than [n].  [kept] is computed from
    the two end parties' bases alone: whatever bits the receiver read, the
    only input an eavesdropper influences, the same trials are kept. *)
Theorem sifting_correct (alice_bases bob_bases : list string)
  (alice_bits bob_bits : list Z) :
  length alice_bases = length alice_bits ->
  length bob_bases = length alice_bits ->
  length bob_bits = length alice_bits ->
  let n := length alice_bits in
  let kept := sifted_trials alice_bases bob_bases n in
  Script.sift_keys alice_bases bob_bases alice_bits bob_bits =
    Some (map (fun i => nth i alice_bits 0) kept,
          map (fun i => nth i bob_bits 0) kept, kept) /\
  App.sift_keys alice_bases bob_bases alice_bits bob_bits =
    Some (map (fun i => nth i alice_bits 0) kept,
          map (fun i => nth i bob_bits 0) kept) /\
  (forall bob_bits',
      length bob_bits' = n ->
      Script.sift_keys alice_bases bob_bases alice_bits bob_bits' =
        Some (map (fun i => nth i alice_bits 0) kept,
              map (fun i => nth i bob_bits' 0) kept, kept)) /\
  (forall i, In i kept <->
             (i < n)%nat /\ nth_error alice_bases i = nth_error bob_bases i) /\
  StronglySorted lt kept /\
  (length kept <= n)%nat.
Proof.
  intros Ha Hb Hc n kept.
  split; [now apply script_sift_keys_eq |].
  split; [now apply app_sift_keys_eq |].
  split; [intros bob_bits' Hc'; now apply script_sift_keys_eq |].
  split; [intros i; now apply (sifted_trials_iff _ _ alice_bits bob_bits) |].
  split.
  - apply filter_strongly_sorted, seq_strongly_sorted.
  - apply sifted_trials_length.
Qed.

(** C10. Equal sifted lengths: on inputs of equal length [sift_keys] returns
    two keys of one length, the script's index list has that length too, and
    [zip] inside [calculate_qber] pairs all of them, so the denominator
    [len(key_a)] is the number of compared pairs. *)
Theorem sifted_keys_same_length (alice_bases bob_bases : list string)
  (alice_bits bob_bits : list Z) :
  length alice_bases = length alice_bits ->
  length bob_bases = length alice_bits ->
  length bob_bits = length alice_bits ->
  exists sa sb ix,
    Script.sift_keys alice_bases bob_bases alice_bits bob_bits =
      Some (sa, sb, ix) /\
    App.sift_keys alice_bases bob_bases alice_bits bob_bits = Some (sa, sb) /\
    length sa = length sb /\
    length ix = length sa /\
    length (combine sa sb) = length sa.
Proof.
  intros Ha Hb Hc.
  eexists _, _, _. split; [now apply script_sift_keys_eq |].
  split; [now apply app_sift_keys_eq |].
  rewrite length_combine, !length_map. repeat split. lia.
Qed.

(** ** The error rate *)

Lemma count_errors_cons (a b : Z) (key_a key_b : list Z) :
  count_errors (a :: key_a) (b :: key_b) =
  (if a =? b then 0 else 1) + count_errors key_a key_b.
Proof. reflexivity. Qed.

Lemma count_errors_bounds (key_a : list Z) :
  forall key_b, 0 <= count_errors key_a key_b <= Z.of_nat (length key_a).
Proof.
  induction key_a as [| a key_a IH]; intros [| b key_b];
    try (unfold count_errors; simpl; lia).
  rewrite count_errors_cons. specialize (IH key_b).
  change (length (a :: key_a)) with (S (length key_a)).
  destruct (a =? b); lia.
Qed.

Lemma count_errors_same (key : list Z) : count_errors key key = 0.
Proof.
  induction key as [| a key IH]; [reflexivity |].
  rewrite count_errors_cons, IH, Z.eqb_refl. reflexivity.
Qed.

Lemma filter_map_length {A B} (f : B -> bool) (g : A -> B) (l : list A) :
  length (filter f (map g l)) = length (filter (fun x => f (g x)) l).
Proof.
  induction l as [| x l IH]; simpl; [reflexivity |].
  destruct (f (g x)); simpl; now rewrite IH.
Qed.

Lemma disagreements_cons (a b : Z) (key_a key_b : list Z) :
  disagreements (a :: key_a) (b :: key_b) =
  ((if (a =? b)%Z then 0 else 1) + disagreements key_a key_b)%nat.
Proof.
  unfold disagreements. change (length (a :: key_a)) with (S (length key_a)).
  rewrite <- cons_seq, <- seq_shift. simpl filter.
  destruct (a =? b); simpl; now rewrite filter_map_length.
Qed.

(** [zip] and [sum] count the positions at which the keys differ. *)
Lemma count_errors_disagreements (key_a : list Z) :
  forall key_b, length key_a = length key_b ->
                count_errors key_a key_b = Z.of_nat (disagreements key_a key_b).
Proof.
  induction key_a as [| a key_a IH]; intros [| b key_b] Hlen;
    try discriminate; [reflexivity |].
  injection Hlen as Hlen.
  rewrite count_errors_cons, disagreements_cons, (IH key_b Hlen).
  destruct (a =? b); lia.
Qed.

Lemma to_pos_of_nat_succ (k : nat) :
  Z.to_pos (Z.of_nat (S k)) = Pos.of_nat (S k).
Proof. simpl Z.of_nat. simpl Z.to_pos. apply Pos.of_nat_succ. Qed.

(** The guard [if key_a] keeps the division away from zero, and the rate is
    a fraction of the key. *)
Lemma calculate_qber_total (key_a key_b : list Z) :
  exists q, calculate_qber key_a key_b = Some q /\ (0 <= q)%Q /\ (q <= 1)%Q.
Proof.
  destruct key_a as [| a key_a].
  - exists 0%Q. repeat split; discriminate.
  - pose proof (count_errors_bounds (a :: key_a) key_b) as Hb.
    unfold calculate_qber, truediv.
    change (length (a :: key_a)) with (S (length key_a)) in *.
    rewrite to_pos_of_nat_succ.
    destruct (Z.eqb_spec (Z.of_nat (S (length key_a))) 0) as [E | _]; [lia |].
    eexists. split; [reflexivity |].
    unfold Qle. cbn [Qnum Qden].
    rewrite <- Pos.of_nat_succ, Zpos_P_of_succ_nat. lia.
Qed.

(** C3. QBER postcondition: on two keys of one length [calculate_qber]
    returns, never raising [ZeroDivisionError]; the value is 0 for the empty
    key and otherwise the number of positions at which the keys differ over
    the key length; it lies between 0 and 1. *)
Theorem qber_postcondition (key_a key_b : list Z) :
  length key_a = length key_b ->
  exists q,
    calculate_qber key_a key_b = Some q /\
    q = match key_a with
        | [] => 0%Q
        | _ :: _ =>
            Z.of_nat (disagreements key_a key_b) # Pos.of_nat (length key_a)
        end /\
    (0 <= q)%Q /\ (q <= 1)%Q.
Proof.
  intros Hlen.
  destruct (calculate_qber_total key_a key_b) as (q & Hq & H0 & H1).
  exists q. repeat split; try assumption.
  destruct key_a as [| a key_a].
  - simpl in Hq. congruence.
  - unfold calculate_qber, truediv in Hq.
    change (length (a :: key_a)) with (S (length key_a)) in *.
    rewrite to_pos_of_nat_succ in Hq.
    rewrite count_errors_disagreements in Hq by exact Hlen.
    destruct (Z.of_nat (S (length key_a)) =? 0); congruence.
Qed.

(** ** The detection threshold *)

Lemma classify_suspected (q : Q) :
  classify q = EavesdroppingSuspected <-> (threshold < q)%Q.
Proof.
  unfold classify, Qgtb.
  destruct (Qle_bool q threshold) eqn:E; simpl; split; intros H.
  - discriminate.
  - apply Qle_bool_iff in E. exfalso. eapply Qlt_not_le; eassumption.
  - apply Qnot_le_lt. intros Hle. apply Qle_bool_iff in Hle. congruence.
  - reflexivity.
Qed.

Lemma classify_secure (q : Q) :
  classify q = SecureLikely <-> (q <= threshold)%Q.
Proof.
  unfold classify, Qgtb.
  destruct (Qle_bool q threshold) eqn:E; simpl; split; intros H.
  - now apply Qle_bool_iff.
  - reflexivity.
  - discriminate.
  - apply Qle_bool_iff in H. congruence.
Qed.

(** C5. Exclusive detection threshold: the handler takes the "High QBER"
    branch exactly for a rate strictly greater than 0.15; a rate equal to
    0.15 takes the "Low QBER" branch, as does 0.10, while 0.20 is flagged. *)
Theorem detection_threshold_exclusive :
  (threshold == 15 # 100)%Q /\
  (forall q, classify q = EavesdroppingSuspected <-> (threshold < q)%Q) /\
  (forall q, (q == threshold)%Q -> classify q = SecureLikely) /\
  classify (15 # 100) = SecureLikely /\
  classify (3 # 20) = SecureLikely /\
  classify (10 # 100) = SecureLikely /\
  classify (20 # 100) = EavesdroppingSuspected.
Proof.
  split; [reflexivity |].
  split; [exact classify_suspected |].
  split; [| repeat split].
  intros q Hq. apply classify_secure. rewrite Hq. apply Qle_refl.
Qed.


Lemma Verdict_eqb_eq (a b : Verdict) : Verdict_eqb a b = true -> a = b.
Proof. destruct a, b; simpl; congruence. Qed.

(** On binary64 floats the handler takes the same branch as on the exact
    quotient, for every sifted key of up to 200 bits. *)
Lemma float_classify_agrees (errors len : nat) :
  (1 <= len <= 200)%nat -> (errors <= len)%nat ->
  float_classify (Z.of_nat errors) (Z.of_nat len) =
  classify (Z.of_nat errors # Pos.of_nat len).
Proof.
  intros Hlen Herr.
  assert (H : classifications_agree_upto 200 = true) by (vm_compute; reflexivity).
  unfold classifications_agree_upto in H.
  rewrite forallb_forall in H.
  specialize (H len). rewrite in_seq in H.
  assert (Hin : (1 <= len < 1 + 200)%nat) by lia.
  specialize (H Hin). rewrite forallb_forall in H.
  apply Verdict_eqb_eq, H, in_seq. lia.
Qed.

Example float_boundary :
  float_classify 3 20 = SecureLikely /\
  float_classify 30 200 = SecureLikely /\
  float_classify 31 200 = EavesdroppingSuspected.
Proof. repeat split. Qed.
(** ** Interception *)

Section Interception.

Context {G : Type} (next : G -> Z * G).

(** The simulator never raises and leaves Python's generator alone. *)
Lemma run_instructions_total (qc : QuantumCircuit) :
  forall s c w, exists r w',
    run_instructions next qc s c w = Some (r, w') /\
    py_random w' = py_random w.
Proof.
  induction qc as [| i qc IH]; intros s c w.
  - exists c, w. now split.
  - destruct i; simpl; try apply IH.
    unfold bind. rewrite backend_draw_eq.
    destruct (IH (collapse s (sample s (fst (next (backend_random w)))))
                 (sample s (fst (next (backend_random w))))
                 (mkWorld (py_random w) (snd (next (backend_random w)))))
      as (r & w' & Hr & Hpy).
    exists r, w'. now split.
Qed.

(** A barrier does not change what is read. *)
Lemma run_instructions_barrier (pre rest : QuantumCircuit) :
  forall s c w,
    run_instructions next (pre ++ Barrier :: rest) s c w =
    run_instructions next (pre ++ rest) s c w.
Proof.
  induction pre as [| i pre IH]; intros s c w; [reflexivity |].
  destruct i; simpl; try apply IH.
  unfold bind. destruct (backend_draw next w) as [[r w1] |]; [| reflexivity].
  apply IH.
Qed.

(** After a final measurement the register holds a bit. *)
Lemma run_instructions_measured (pre : QuantumCircuit) :
  forall s c w r w',
    run_instructions next (pre ++ [Measure]) s c w = Some (r, w') -> is_bit r.
Proof.
  induction pre as [| i pre IH]; intros s c w r w' H.
  - simpl in H. unfold bind in H. rewrite backend_draw_eq in H.
    unfold ret in H. inversion H. apply sample_is_bit.
  - destruct i; simpl in H; try (eapply IH; eassumption).
    unfold bind in H. rewrite backend_draw_eq in H.
    eapply IH; eassumption.
Qed.

Lemma execute_measured (qc : QuantumCircuit) (b : string) (w w' : World G)
  (r : Z) :
  execute next (qc ++ measure_in b) w = Some (r, w') -> is_bit r.
Proof.
  unfold execute, measure_in. rewrite app_assoc.
  apply run_instructions_measured.
Qed.

Lemma resend_each (circuits : list QuantumCircuit) :
  forall (bases : list string) (w : World G),
    length bases = length circuits ->
    exists results w',
      for_each (fun '(qc, b) => resend next qc b) (combine circuits bases) w =
        Some (encode_qubits results bases, w') /\
      measured_each next circuits bases w results w' /\
      length results = length circuits /\
      Forall is_bit results.
Proof.
  induction circuits as [| qc circuits IH]; intros [| b bases] w Hlen;
    try discriminate.
  - exists [], w. repeat split; constructor.
  - injection Hlen as Hlen.
    destruct (run_instructions_total (qc ++ measure_in b) ground 0 w)
      as (r & w1 & Hr & _).
    destruct (IH bases w1 Hlen) as (rs & w2 & Hrs & Hm & Hl & Hbits).
    exists (r :: rs), w2. simpl. unfold resend at 1. unfold bind at 1 2.
    unfold execute at 1. rewrite Hr. unfold ret at 1.
    unfold bind. rewrite Hrs. repeat split.
    + econstructor; eassumption.
    + simpl. now f_equal.
    + constructor; [eapply execute_measured; exact Hr | exact Hbits].
Qed.

Lemma app_eve_loop_zip (circuits : list QuantumCircuit) (bases : list string) :
  length bases = length circuits ->
  forall w,
    for_each (fun '(i, qc) =>
                (base <- lift (index bases i) ;;
                 result <- execute next
                             (qc ++
                              (if String.eqb base X_basis then [HGate] else [])
                              ++ [Measure]) ;;
                 base' <- lift (index bases i) ;;
                 ret ((if result =? 1 then [XGate] else []) ++
                      (if String.eqb base' X_basis then [HGate] else [])))%m)
             (enumerate circuits) w =
    for_each (fun '(qc, b) => resend next qc b) (combine circuits bases) w.
Proof.
  intros Hlen w. unfold enumerate.
  apply (for_each_enumerate
           (fun i qc =>
              (base <- lift (index bases i) ;;
               result <- execute next
                           (qc ++
                            (if String.eqb base X_basis then [HGate] else [])
                            ++ [Measure]) ;;
               base' <- lift (index bases i) ;;
               ret ((if result =? 1 then [XGate] else []) ++
                    (if String.eqb base' X_basis then [HGate] else [])))%m)
           (resend next) circuits bases 0%nat).
  - apply Nat.eq_le_incl. symmetry. exact Hlen.
  - intros j qc b w' Hj. unfold resend, bind, lift, index. simpl.
    rewrite Hj.
    change ((if String.eqb b X_basis then [HGate] else []) ++ [Measure])
      with (measure_in b).
    destruct (execute next (qc ++ measure_in b) w') as [[r w1] |];
      reflexivity.
Qed.

Lemma script_eve_loop_zip (circuits : list QuantumCircuit)
  (bases : list string) :
  length bases = length circuits ->
  forall w,
    for_each (fun '(i, qc) =>
                (base <- lift (index bases i) ;;
                 result <- execute next
                             (qc ++ [Barrier] ++
                              (if String.eqb base X_basis then [HGate] else [])
                              ++ [Measure]) ;;
                 base' <- lift (index bases i) ;;
                 ret ((if result =? 1 then [XGate] else []) ++
                      (if String.eqb base' X_basis then [HGate] else [])))%m)
             (enumerate circuits) w =
    for_each (fun '(qc, b) => resend next qc b) (combine circuits bases) w.
Proof.
  intros Hlen w. unfold enumerate.
  apply (for_each_enumerate
           (fun i qc =>
              (base <- lift (index bases i) ;;
               result <- execute next
                           (qc ++ [Barrier] ++
                            (if String.eqb base X_basis then [HGate] else [])
                            ++ [Measure]) ;;
               base' <- lift (index bases i) ;;
               ret ((if result =? 1 then [XGate] else []) ++
                    (if String.eqb base' X_basis then [HGate] else [])))%m)
           (resend next) circuits bases 0%nat).
  - apply Nat.eq_le_incl. symmetry. exact Hlen.
  - intros j qc b w' Hj. unfold resend, bind, lift, index. simpl.
    rewrite Hj. unfold execute.
    change (qc ++ Barrier ::
               (if String.eqb b X_basis then [HGate] else []) ++ [Measure])
      with (qc ++ Barrier :: measure_in b).
    rewrite run_instructions_barrier.
    destruct (run_instructions next (qc ++ measure_in b) ground 0 w')
      as [[r w1] |]; reflexivity.
Qed.

Lemma eve_bases_drawn (circuits : list QuantumCircuit) (w : World G) :
  for_each (fun _ : nat => choice next [Z_basis; X_basis])
           (range (Z.of_nat (length circuits))) w =
  Some (map pick_basis (draws next (py_random w) (length circuits)),
        mkWorld (advance next (py_random w) (length circuits))
                (backend_random w)).
Proof. now rewrite for_each_choice, range_length, Nat2Z.id. Qed.

(** Interception returns as many circuits as it was given. *)
Lemma app_eve_intercept_length (circuits : list QuantumCircuit) (w : World G) :
  exists forwarded w',
    App.eve_intercept next circuits w = Some (forwarded, w') /\
    length forwarded = length circuits.
Proof.
  set (eve_bases := map pick_basis
                        (draws next (py_random w) (length circuits))).
  assert (Hlen : length eve_bases = length circuits)
    by (unfold eve_bases; now rewrite length_map, draws_length).
  destruct (resend_each circuits eve_bases
              (mkWorld (advance next (py_random w) (length circuits))
                       (backend_random w)) Hlen)
    as (results & w' & Hloop & _ & Hl & _).
  exists (encode_qubits results eve_bases), w'. split.
  - unfold App.eve_intercept.
    rewrite (bind_some _ _ _ _ _ (eve_bases_drawn circuits w)).
    fold eve_bases. rewrite app_eve_loop_zip by exact Hlen. exact Hloop.
  - rewrite encode_qubits_length; congruence.
Qed.

(** What the eavesdropper appends to a blank circuit is the preparation
    of her reading in her basis, and it is what the sender's encoder
    builds for that bit and basis. *)
Lemma preparation_encode (bit : Z) (basis : string) :
  preparation bit basis = encode_qubit bit basis.
Proof.
  unfold preparation, encode_qubit.
  destruct (bit =? 1), (String.eqb basis X_basis); reflexivity.
Qed.

Lemma preparations_encode (results : list Z) (bases : list string) :
  map (fun '(r, b) => preparation r b) (combine results bases) =
  encode_qubits results bases.
Proof.
  unfold encode_qubits. apply map_ext. intros [r b]. apply preparation_encode.
Qed.

(** C7. Intercept-resend: for any circuits and any world [eve_intercept]
    returns.  It draws one basis per circuit from Python's generator,
    measures circuit after circuit in the basis at its position, and
    forwards, for each, the preparation of the bit read in that same
    basis: the empty circuit for 0 in Z, [x] for 1 in Z, [h] for 0 in X
    and [x; h] for 1 in X, which is the circuit [encode_qubits] builds for
    that bit and basis.  The script does the same and also returns the
    bases. *)
Theorem eve_intercept_resend (circuits : list QuantumCircuit) (w : World G) :
  let k := length circuits in
  let eve_bases := map pick_basis (draws next (py_random w) k) in
  let w1 := mkWorld (advance next (py_random w) k) (backend_random w) in
  exists results w',
    App.eve_intercept next circuits w =
      Some (map (fun '(r, b) => preparation r b) (combine results eve_bases),
            w') /\
    Script.eve_intercept next circuits w =
      Some ((map (fun '(r, b) => preparation r b)
                 (combine results eve_bases), eve_bases), w') /\
    map (fun '(r, b) => preparation r b) (combine results eve_bases) =
      encode_qubits results eve_bases /\
    measured_each next circuits eve_bases w1 results w' /\
    length eve_bases = k /\ Forall is_basis eve_bases /\
    length results = k /\ Forall is_bit results.
Proof.
  intros k eve_bases w1.
  assert (Hlen : length eve_bases = length circuits)
    by (unfold eve_bases; now rewrite length_map, draws_length).
  destruct (resend_each circuits eve_bases w1 Hlen)
    as (results & w' & Hloop & Hm & Hl & Hbits).
  pose proof (eve_bases_drawn circuits w) as Hdraw.
  fold k eve_bases w1 in Hdraw.
  exists results, w'. rewrite preparations_encode.
  repeat split; try assumption.
  - unfold App.eve_intercept. rewrite (bind_some _ _ _ _ _ Hdraw).
    rewrite app_eve_loop_zip by exact Hlen. exact Hloop.
  - unfold Script.eve_intercept. rewrite (bind_some _ _ _ _ _ Hdraw).
    erewrite bind_some; [reflexivity |].
    rewrite script_eve_loop_zip by exact Hlen. exact Hloop.
  - apply drawn_bases.
Qed.

End Interception.

(** ** The run *)

Section Run.

Context {G : Type} (next : G -> Z * G).

Lemma bind_ret {A B} (a : A) (k : A -> M G B) (w : World G) :
  bind (ret a) k w = k a w.
Proof. reflexivity. Qed.

Lemma create_bits_bases_eq (n : Z) (w : World G) :
  let k := Z.to_nat n in
  App.create_bits_bases next n w =
  Some ((map (fun r => r mod 2) (draws next (py_random w) k),
         map pick_basis (draws next (advance next (py_random w) k) k)),
        mkWorld (advance next (py_random w) (k + k)) (backend_random w)).
Proof.
  intros k. unfold App.create_bits_bases.
  erewrite bind_some by apply for_each_randint.
  erewrite bind_some by apply for_each_choice.
  unfold ret. rewrite range_length. fold k. simpl. now rewrite advance_add.
Qed.

Lemma create_alice_bits_eq (n : Z) (w : World G) :
  Script.create_alice_bits next n w = App.create_bits_bases next n w.
Proof. reflexivity. Qed.

(** C8, as the code has it.  Nothing validates [n]: given [n <= 0],
    [create_bits_bases] returns two empty lists, and the run returns
    normally, without a single draw, with no trial, empty keys, a QBER of 0
    and the "Low QBER" verdict; so does the script's [main] body. *)
Theorem nonpositive_n_runs_empty (n : Z) (eve_present : bool) (w : World G) :
  n <= 0 ->
  App.create_bits_bases next n w = Some (([], []), w) /\
  App.run_simulation next n eve_present w =
    Some (App.mkResult [] [] [] [] [] [] 0 SecureLikely, w) /\
  Script.main_with next n w =
    Some (Script.mkResult [] [] [] [] [] [] [] [] 0 SecureLikely, w).
Proof.
  intros Hn.
  assert (Hr : range n = []).
  { unfold range. replace (Z.to_nat n) with 0%nat by lia. reflexivity. }
  unfold App.run_simulation, Script.main_with, App.create_bits_bases,
    Script.create_alice_bits.
  rewrite Hr. destruct w as [p b]. destruct eve_present; repeat split.
Qed.

End Run.

(** ** Runs from the same draws *)

Section Seeded.

Context {G1 G2 : Type} (next1 : G1 -> Z * G1) (next2 : G2 -> Z * G2).

Notation "m1 ~ m2" := (agree next1 next2 m1 m2) (at level 70).

Lemma same_draws_step (g1 : G1) (g2 : G2) :
  same_draws next1 next2 g1 g2 ->
  fst (next1 g1) = fst (next2 g2) /\
  same_draws next1 next2 (snd (next1 g1)) (snd (next2 g2)).
Proof.
  intros H. split.
  - specialize (H 1%nat). simpl in H. now injection H.
  - intros k. specialize (H (S k)). simpl in H. now injection H.
Qed.

Lemma agree_ret {A} (a : A) : ret a ~ ret a.
Proof. intros w1 w2 Hw. simpl. now split. Qed.

Lemma agree_lift {A} (o : option A) : lift o ~ lift o.
Proof. intros w1 w2 Hw. unfold lift. destruct o; [now split | exact I]. Qed.

Lemma agree_bind {A B} (m1 : M G1 A) (m2 : M G2 A)
  (k1 : A -> M G1 B) (k2 : A -> M G2 B) :
  m1 ~ m2 -> (forall a, k1 a ~ k2 a) -> bind m1 k1 ~ bind m2 k2.
Proof.
  intros Hm Hk w1 w2 Hw. unfold bind. specialize (Hm w1 w2 Hw).
  destruct (m1 w1) as [[a1 w1'] |], (m2 w2) as [[a2 w2'] |];
    try contradiction; [| exact I].
  destruct Hm as [-> Hw']. now apply Hk.
Qed.

Lemma agree_py_draw : py_draw next1 ~ py_draw next2.
Proof.
  intros w1 w2 [Hpy Hbk]. rewrite !py_draw_eq.
  destruct (same_draws_step _ _ Hpy) as [Hr Hg]. now repeat split.
Qed.

Lemma agree_backend_draw : backend_draw next1 ~ backend_draw next2.
Proof.
  intros w1 w2 [Hpy Hbk]. rewrite !backend_draw_eq.
  destruct (same_draws_step _ _ Hbk) as [Hr Hg]. now repeat split.
Qed.

Lemma agree_for_each {A B} (f1 : A -> M G1 B) (f2 : A -> M G2 B)
  (xs : list A) :
  (forall x, f1 x ~ f2 x) -> for_each f1 xs ~ for_each f2 xs.
Proof.
  intros Hf. induction xs as [| x xs IH]; simpl.
  - apply agree_ret.
  - apply agree_bind; [apply Hf |]. intros y.
    apply agree_bind; [apply IH |]. intros ys. apply agree_ret.
Qed.

Lemma agree_run_instructions (qc : QuantumCircuit) :
  forall s c, run_instructions next1 qc s c ~ run_instructions next2 qc s c.
Proof.
  induction qc as [| i qc IH]; intros s c; simpl.
  - apply agree_ret.
  - destruct i; try apply IH.
    apply agree_bind; [apply agree_backend_draw |]. intros r. apply IH.
Qed.

Ltac agree_steps :=
  repeat first
    [ apply agree_ret
    | apply agree_lift
    | apply agree_py_draw
    | apply agree_backend_draw
    | apply agree_run_instructions
    | apply agree_for_each; intros ?
    | match goal with p : (_ * _)%type |- _ => destruct p end
    | match goal with |- agree _ _ (if ?b then _ else _) _ => destruct b end
    | assumption
    | apply agree_bind; [| intros ?] ].

Lemma agree_randint (a b : Z) : randint next1 a b ~ randint next2 a b.
Proof. unfold randint. agree_steps. Qed.

Lemma agree_choice {A} (seq : list A) : choice next1 seq ~ choice next2 seq.
Proof. unfold choice. agree_steps. Qed.

Lemma agree_execute (qc : QuantumCircuit) : execute next1 qc ~ execute next2 qc.
Proof. unfold execute. agree_steps. Qed.

Lemma agree_measure_qubits (circuits : list QuantumCircuit)
  (bob : list string) :
  measure_qubits next1 circuits bob ~ measure_qubits next2 circuits bob.
Proof. unfold measure_qubits. agree_steps. Qed.

Lemma agree_bases {A} (xs : list A) :
  for_each (fun _ => choice next1 [Z_basis; X_basis]) xs ~
  for_each (fun _ => choice next2 [Z_basis; X_basis]) xs.
Proof. agree_steps. Qed.

Lemma agree_create_bits_bases (n : Z) :
  App.create_bits_bases next1 n ~ App.create_bits_bases next2 n.
Proof. unfold App.create_bits_bases. agree_steps. Qed.

Lemma agree_app_eve_intercept (circuits : list QuantumCircuit) :
  App.eve_intercept next1 circuits ~ App.eve_intercept next2 circuits.
Proof. unfold App.eve_intercept. agree_steps. Qed.

Lemma agree_script_eve_intercept (circuits : list QuantumCircuit) :
  Script.eve_intercept next1 circuits ~ Script.eve_intercept next2 circuits.
Proof. unfold Script.eve_intercept. agree_steps. Qed.

Lemma agree_run_simulation (n : Z) (eve_present : bool) :
  App.run_simulation next1 n eve_present ~
  App.run_simulation next2 n eve_present.
Proof.
  unfold App.run_simulation.
  apply agree_bind; [apply agree_create_bits_bases |].
  intros [alice_bits alice_bases].
  apply agree_bind; [apply agree_bases |]. intros bob_bases.
  apply agree_bind.
  { destruct eve_present; [apply agree_app_eve_intercept | apply agree_ret]. }
  intros intercepted.
  apply agree_bind; [apply agree_measure_qubits |]. intros bob_results.
  apply agree_bind; [apply agree_lift |]. intros [key_a key_b].
  apply agree_bind; [apply agree_lift |]. intros qber. apply agree_ret.
Qed.

Lemma agree_main_with (n : Z) :
  Script.main_with next1 n ~ Script.main_with next2 n.
Proof.
  unfold Script.main_with.
  apply agree_bind; [apply agree_create_bits_bases |].
  intros [alice_bits alice_bases].
  apply agree_bind; [apply agree_script_eve_intercept |].
  intros [eve_circuits eve_bases].
  apply agree_bind; [apply agree_bases |]. intros bob_bases.
  apply agree_bind; [apply agree_measure_qubits |]. intros bob_results.
  apply agree_bind; [apply agree_lift |]. intros [[alice_key bob_key] indices].
  apply agree_bind; [apply agree_lift |]. intros qber. apply agree_ret.
Qed.

Lemma agree_value {A} (m1 : M G1 A) (m2 : M G2 A) (w1 : World G1)
  (w2 : World G2) :
  m1 ~ m2 -> same_world next1 next2 w1 w2 -> value m1 w1 = value m2 w2.
Proof.
  intros Hm Hw. specialize (Hm w1 w2 Hw). unfold value.
  destruct (m1 w1) as [[a1 w1'] |], (m2 w2) as [[a2 w2'] |];
    try contradiction; [| reflexivity].
  destruct Hm as [-> _]. reflexivity.
Qed.

(** Runs are functions of the draws: two runs with the same [n] and the
    same eavesdropper flag, started from generators that produce the same
    draws for Python's [random] module and for the backend, either both
    raise or return the same result.  The same holds for the script. *)
Lemma same_draws_same_result (n : Z) (eve_present : bool)
  (w1 : World G1) (w2 : World G2) :
  same_world next1 next2 w1 w2 ->
  value (App.run_simulation next1 n eve_present) w1 =
    value (App.run_simulation next2 n eve_present) w2 /\
  value (Script.main_with next1 n) w1 = value (Script.main_with next2 n) w2 /\
  value (Script.main next1) w1 = value (Script.main next2) w2.
Proof.
  intros Hw. repeat split.
  - apply agree_value; [apply agree_run_simulation | exact Hw].
  - apply agree_value; [apply agree_main_with | exact Hw].
  - apply agree_value; [apply agree_main_with | exact Hw].
Qed.

End Seeded.

(** ** The run never raises *)

Section RunReturns.

Context {G : Type} (next : G -> Z * G).

Lemma measure_qubits_total (circuits : list QuantumCircuit) :
  forall (bob : list string) (w : World G),
    length circuits = length bob ->
    exists results w',
      measure_qubits next circuits bob w = Some (results, w') /\
      length results = length circuits /\
      Forall is_bit results /\
      py_random w' = py_random w.
Proof.
  intros bob w Hlen.
  rewrite measure_qubits_zip by (apply Nat.eq_le_incl; exact Hlen).
  revert bob w Hlen.
  induction circuits as [| qc circuits IH]; intros [| b bob] w Hlen;
    try discriminate.
  - exists [], w. repeat split; constructor.
  - injection Hlen as Hlen.
    destruct (run_instructions_total next (qc ++ measure_in b) ground 0 w)
      as (r & w1 & Hr & Hpy1).
    destruct (IH bob w1 Hlen) as (rs & w2 & Hrs & Hl & Hbits & Hpy2).
    exists (r :: rs), w2. simpl.
    erewrite bind_some by exact Hr.
    erewrite bind_some by exact Hrs.
    repeat split.
    + simpl. now f_equal.
    + constructor; [eapply execute_measured; exact Hr | exact Hbits].
    + congruence.
Qed.

(** The records of a run: the sender's bits and bases and the receiver's
    bases are read off Python's generator before any interception, so they
    are the same with and without the eavesdropper. *)
Lemma run_simulation_returns (n : Z) (eve_present : bool) (w : World G) :
  let k := Z.to_nat n in
  let py := py_random w in
  exists res w',
    App.run_simulation next n eve_present w = Some (res, w') /\
    App.alice_bits res = map (fun r => r mod 2) (draws next py k) /\
    App.alice_bases res = map pick_basis (draws next (advance next py k) k) /\
    App.bob_bases res =
      map pick_basis (draws next (advance next py (k + k)) k) /\
    length (App.bob_results res) = k /\
    App.sift_keys (App.alice_bases res) (App.bob_bases res)
                  (App.alice_bits res) (App.bob_results res) =
      Some (App.key_a res, App.key_b res) /\
    calculate_qber (App.key_a res) (App.key_b res) = Some (App.qber res) /\
    App.verdict res = classify (App.qber res).
Proof.
  intros k py.
  set (bits := map (fun r => r mod 2) (draws next py k)).
  set (bases := map pick_basis (draws next (advance next py k) k)).
  set (w1 := mkWorld (advance next py (k + k)) (backend_random w)).
  set (bob := map pick_basis (draws next (py_random w1) k)).
  set (w2 := mkWorld (advance next (py_random w1) k) (backend_random w1)).
  assert (Lbits : length bits = k)
    by (unfold bits; now rewrite length_map, draws_length).
  assert (Lbases : length bases = k)
    by (unfold bases; now rewrite length_map, draws_length).
  assert (Lbob : length bob = k)
    by (unfold bob; now rewrite length_map, draws_length).
  assert (Hmid : exists circuits w3,
             (if eve_present
              then App.eve_intercept next (encode_qubits bits bases)
              else ret (encode_qubits bits bases)) w2 = Some (circuits, w3) /\
             length circuits = k).
  { destruct eve_present.
    - destruct (app_eve_intercept_length next (encode_qubits bits bases) w2)
        as (forwarded & w3 & Happ & Hl).
      exists forwarded, w3. split; [exact Happ |].
      rewrite Hl. rewrite encode_qubits_length; congruence.
    - eexists _, w2. split; [reflexivity |].
      rewrite encode_qubits_length; congruence. }
  destruct Hmid as (circuits & w3 & Hmid & Lc).
  destruct (measure_qubits_total circuits bob w3)
    as (results & w4 & Hmeas & Lres & _ & _); [congruence |].
  set (kept := sifted_trials bases bob (length bits)).
  set (ka := map (fun i => nth i bits 0) kept).
  set (kb := map (fun i => nth i results 0) kept).
  assert (Hsift : App.sift_keys bases bob bits results = Some (ka, kb))
    by (apply app_sift_keys_eq; congruence).
  destruct (calculate_qber_total ka kb) as (q & Hq & _).
  exists (App.mkResult bits bases bob results ka kb q (classify q)), w4.
  split; [| simpl; repeat split; try assumption; congruence].
  unfold App.run_simulation.
  erewrite bind_some by apply create_bits_bases_eq. cbv iota beta.
  fold k py bits bases w1.
  erewrite bind_some
    by (rewrite for_each_choice, range_length; fold k bob w2; reflexivity).
  erewrite bind_some by exact Hmid.
  erewrite bind_some by exact Hmeas.
  erewrite bind_some by (unfold lift; rewrite Hsift; reflexivity).
  cbv iota beta.
  erewrite bind_some by (unfold lift; rewrite Hq; reflexivity).
  reflexivity.
Qed.

(** The eavesdropper has no effect on which trials are sifted: the runs
    with and without interception, from the same world, keep the same
    trials. *)
Corollary eavesdropper_keeps_sifted_trials (n : Z) (w : World G) :
  exists res0 res1 w0 w1,
    App.run_simulation next n false w = Some (res0, w0) /\
    App.run_simulation next n true w = Some (res1, w1) /\
    App.alice_bases res0 = App.alice_bases res1 /\
    App.bob_bases res0 = App.bob_bases res1 /\
    sifted_trials (App.alice_bases res0) (App.bob_bases res0) (Z.to_nat n) =
    sifted_trials (App.alice_bases res1) (App.bob_bases res1) (Z.to_nat n) /\
    length (App.key_a res0) = length (App.key_a res1).
Proof.
  destruct (run_simulation_returns n false w)
    as (r0 & w0 & H0 & Hb0 & Ha0 & Hbb0 & Hl0 & Hs0 & _).
  destruct (run_simulation_returns n true w)
    as (r1 & w1 & H1 & Hb1 & Ha1 & Hbb1 & Hl1 & Hs1 & _).
  exists r0, r1, w0, w1.
  assert (Ea : App.alice_bases r0 = App.alice_bases r1) by congruence.
  assert (Eb : App.bob_bases r0 = App.bob_bases r1) by congruence.
  repeat split; try assumption; try congruence.
  assert (Lk : forall r, App.alice_bits r =
                         map (fun r => r mod 2)
                             (draws next (py_random w) (Z.to_nat n)) ->
                         length (App.alice_bits r) = Z.to_nat n)
    by (intros r E; rewrite E; now rewrite length_map, draws_length).
  rewrite app_sift_keys_eq in Hs0, Hs1;
    try (rewrite ?Ha0, ?Ha1, ?Hbb0, ?Hbb1, ?Lk, ?length_map, ?draws_length;
         auto; fail).
  injection Hs0 as <- _. injection Hs1 as <- _.
  rewrite !length_map, !Lk by assumption. congruence.
Qed.

End RunReturns.

(** * Further properties *)

(** ** Preparation and measurement *)

Section MorePreparation.

Context {G : Type} (next : G -> Z * G).

(** X1. [create_bits_bases] (and the script's [create_alice_bits], the same
    code) never raises: it returns [max n 0] bits, each 0 or 1, and as many
    bases, each ['Z'] or ['X'], after exactly two draws per qubit from
    Python's generator and none from the backend. *)
Theorem create_bits_bases_post (n : Z) (w : World G) :
  let k := Z.to_nat n in
  exists bits bases,
    App.create_bits_bases next n w =
      Some ((bits, bases),
            mkWorld (advance next (py_random w) (k + k)) (backend_random w)) /\
    Script.create_alice_bits next n w = App.create_bits_bases next n w /\
    length bits = k /\ length bases = k /\
    Forall is_bit bits /\ Forall is_basis bases.
Proof.
  intros k. eexists _, _.
  split; [apply create_bits_bases_eq |].
  split; [reflexivity |].
  rewrite !length_map, !draws_length.
  repeat split; [apply drawn_bits | apply drawn_bases].
Qed.

Lemma encode_qubits_length_min (bits : list Z) (bases : list string) :
  length (encode_qubits bits bases) = Nat.min (length bits) (length bases).
Proof. unfold encode_qubits. now rewrite length_map, length_combine. Qed.

(** X2. [encode_qubits] pairs bits and bases with [zip]: it builds
    [min(len bits, len bases)] circuits and drops the surplus of the longer
    list silently.  Each circuit is the preparation of its bit in its
    basis, where only the integer [1] counts as a 1 and only ['X'] as the
    diagonal basis; it has at most two gates and neither a measurement nor
    a barrier. *)
Theorem encode_qubits_shape (bits : list Z) (bases : list string) :
  length (encode_qubits bits bases) = Nat.min (length bits) (length bases) /\
  encode_qubits bits bases =
    encode_qubits (firstn (length bases) bits) (firstn (length bits) bases) /\
  encode_qubits bits bases =
    map (fun '(bit, base) => preparation (as_bit bit) base)
        (combine bits bases) /\
  Forall (fun qc => ~ In Measure qc /\ ~ In Barrier qc /\
                    (length qc <= 2)%nat)
         (encode_qubits bits bases).
Proof.
  split; [apply encode_qubits_length_min |].
  split; [| split].
  - unfold encode_qubits. f_equal. revert bases.
    induction bits as [| bit bits IH]; intros [| a bases]; try reflexivity.
    simpl. f_equal. apply IH.
  - unfold encode_qubits. apply map_ext. intros [bit base].
    unfold preparation, as_bit, encode_qubit.
    destruct (bit =? 1), (String.eqb base X_basis); reflexivity.
  - unfold encode_qubits. apply Forall_forall. intros qc Hqc.
    apply in_map_iff in Hqc. destruct Hqc as ([bit base] & <- & _).
    unfold encode_qubit.
    destruct (bit =? 1), (String.eqb base X_basis); simpl;
      repeat split; try lia; intuition discriminate.
Qed.

(** A circuit without measurement acts on the state vector alone. *)
Lemma run_unitary_prefix (pre : QuantumCircuit) :
  ~ In Measure pre ->
  forall s, exists s', forall rest c w,
    run_instructions next (pre ++ rest) s c w =
    run_instructions next rest s' c w.
Proof.
  induction pre as [| i pre IH]; intros Hno s.
  - exists s. reflexivity.
  - assert (Hpre : ~ In Measure pre) by (intro; apply Hno; now right).
    destruct i; simpl; try (apply IH, Hpre).
    exfalso. apply Hno. now left.
Qed.

Lemma execute_one_shot (qc : QuantumCircuit) (b : string) (w : World G) :
  ~ In Measure qc ->
  exists r,
    execute next (qc ++ measure_in b) w =
    Some (r, mkWorld (py_random w) (snd (next (backend_random w)))).
Proof.
  intros Hno. unfold execute, measure_in. rewrite app_assoc.
  destruct (run_unitary_prefix
              (qc ++ (if String.eqb b X_basis then [HGate] else []))
              ) with (s := ground) as (s' & Hs).
  { rewrite in_app_iff. intros [H | H]; [now apply Hno |].
    destruct (String.eqb b X_basis); simpl in H; [| exact H].
    destruct H as [H | H]; [discriminate | exact H]. }
  rewrite Hs. simpl. unfold bind. rewrite backend_draw_eq.
  eexists. reflexivity.
Qed.

Lemma measure_zip_shape (circuits : list QuantumCircuit) :
  forall (bob : list string) (w : World G),
    (length circuits <= length bob)%nat ->
    exists results w',
      for_each (fun '(qc, b) => execute next (qc ++ measure_in b))
               (combine circuits bob) w = Some (results, w') /\
      length results = length circuits /\
      Forall is_bit results /\
      py_random w' = py_random w /\
      (Forall (fun qc => ~ In Measure qc) circuits ->
       backend_random w' =
       advance next (backend_random w) (length circuits)).
Proof.
  induction circuits as [| qc circuits IH]; intros bob w Hlen.
  - exists [], w. repeat split; constructor.
  - destruct bob as [| b bob]; [simpl in Hlen; lia |].
    simpl in Hlen.
    destruct (run_instructions_total next (qc ++ measure_in b) ground 0 w)
      as (r & w1 & Hr & Hpy1).
    destruct (IH bob w1) as (rs & w2 & Hrs & Hl & Hbits & Hpy2 & Hbk);
      [lia |].
    exists (r :: rs), w2. simpl.
    erewrite bind_some by exact Hr.
    erewrite bind_some by exact Hrs.
    split; [reflexivity |]. split; [simpl; now f_equal |].
    split; [constructor; [eapply execute_measured; exact Hr | exact Hbits] |].
    split; [congruence |].
    intros Hall. inversion Hall as [| ? ? Hqc Hrest]; subst.
    rewrite (Hbk Hrest).
    destruct (execute_one_shot qc b w Hqc) as (r' & Hr').
    unfold execute in Hr'. rewrite Hr in Hr'. now inversion Hr'.
Qed.

(** X3. [measure_qubits] raises [IndexError] exactly when [bob_bases] is
    shorter than the list of circuits. *)
Theorem measure_qubits_raises_iff (circuits : list QuantumCircuit)
  (bob_bases : list string) (w : World G) :
  measure_qubits next circuits bob_bases w = None <->
  (length bob_bases < length circuits)%nat.
Proof.
  split.
  - intros Hnone.
    destruct (Nat.lt_ge_cases (length bob_bases) (length circuits))
      as [Hlt | Hge]; [exact Hlt |].
    rewrite measure_qubits_zip in Hnone by exact Hge.
    destruct (measure_zip_shape circuits bob_bases w Hge)
      as (rs & w' & H & _). congruence.
  - intros Hlt. now apply measure_qubits_short.
Qed.

(** X4. With enough bases [measure_qubits] returns one bit per circuit,
    ignores the bases beyond the last circuit, leaves Python's generator
    alone and, when no circuit measures by itself, takes exactly one
    backend draw per circuit. *)
Theorem measure_qubits_shape (circuits : list QuantumCircuit)
  (bob_bases : list string) (w : World G) :
  (length circuits <= length bob_bases)%nat ->
  exists results w',
    measure_qubits next circuits bob_bases w = Some (results, w') /\
    measure_qubits next circuits (firstn (length circuits) bob_bases) w =
      Some (results, w') /\
    length results = length circuits /\
    Forall is_bit results /\
    py_random w' = py_random w /\
    (Forall (fun qc => ~ In Measure qc) circuits ->
     backend_random w' = advance next (backend_random w) (length circuits)).
Proof.
  intros Hlen.
  destruct (measure_zip_shape circuits bob_bases w Hlen)
    as (rs & w' & H & Hrest).
  exists rs, w'.
  split; [now rewrite measure_qubits_zip |].
  split; [| exact Hrest].
  rewrite measure_qubits_zip by (rewrite length_firstn; lia).
  now rewrite <- combine_firstn_l.
Qed.

End MorePreparation.

(** ** Sifting on arbitrary records *)

Lemma for_loop_raises {S} (body : S -> nat -> option S) (idxs : list nat)
  (i : nat) :
  In i idxs -> (forall acc, body acc i = None) ->
  forall acc, for_loop body idxs acc = None.
Proof.
  intros Hin Hnone. induction idxs as [| j idxs IH]; intros acc.
  - contradiction.
  - simpl. destruct (Nat.eq_dec j i) as [-> | Hne].
    + now rewrite Hnone.
    + destruct (body acc j) as [acc' |]; [| reflexivity].
      apply IH. destruct Hin as [Hin | Hin]; [contradiction | exact Hin].
Qed.

Lemma map_nth_seq {A} (l : list A) (d : A) :
  map (fun i => nth i l d) (seq 0 (length l)) = l.
Proof.
  induction l as [| x l IH]; [reflexivity |].
  simpl length. rewrite <- cons_seq, <- seq_shift, map_cons, map_map.
  simpl. now rewrite IH.
Qed.

Section MoreSifting.

Variables (alice_bases bob_bases : list string) (alice_bits bob_bits : list Z).

Let n : nat := length alice_bits.
Let agree_at : nat -> bool := bases_agree alice_bases bob_bases.
Let a_at (i : nat) : Z := nth i alice_bits 0.
Let b_at (i : nat) : Z := nth i bob_bits 0.

(** The two loops run in lockstep, whatever they meet. *)
Lemma sift_loops_lockstep (idxs : list nat) :
  forall sa sb ix,
    for_loop (App.sift_body alice_bases bob_bases alice_bits bob_bits)
             idxs (sa, sb) =
    option_map (fun '(a, b, _) => (a, b))
      (for_loop (Script.sift_body alice_bases bob_bases alice_bits bob_bits)
                idxs (sa, sb, ix)).
Proof.
  induction idxs as [| i idxs IH]; intros sa sb ix; [reflexivity |].
  simpl.
  destruct (index alice_bases i) as [a |]; [| reflexivity].
  destruct (index bob_bases i) as [b |]; [| reflexivity].
  destruct (String.eqb a b); [| apply IH].
  destruct (index alice_bits i) as [x |]; [| reflexivity].
  destruct (index bob_bits i) as [y |]; [| reflexivity].
  apply IH.
Qed.

(** A trial that the loop can process. *)
Let readable (i : nat) : Prop :=
  (i < n)%nat /\ (i < length alice_bases)%nat /\ (i < length bob_bases)%nat /\
  (agree_at i = true -> (i < length bob_bits)%nat).

Lemma script_sift_loop_readable (idxs : list nat) :
  Forall readable idxs ->
  forall sa sb ix,
    for_loop (Script.sift_body alice_bases bob_bases alice_bits bob_bits)
             idxs (sa, sb, ix) =
    Some (sa ++ map a_at (filter agree_at idxs),
          sb ++ map b_at (filter agree_at idxs),
          ix ++ filter agree_at idxs).
Proof.
  induction idxs as [| i idxs IH]; intros Hall sa sb ix.
  - simpl. now rewrite !app_nil_r.
  - inversion Hall as [| ? ? (Hi & Ha & Hb & Hbits) Hrest]; subst.
    simpl. unfold index.
    rewrite (nth_error_nth' alice_bases ""%string) by exact Ha.
    rewrite (nth_error_nth' bob_bases ""%string) by exact Hb.
    assert (Eag : agree_at i =
                  String.eqb (nth i alice_bases ""%string)
                             (nth i bob_bases ""%string)).
    { unfold agree_at, bases_agree.
      rewrite (nth_error_nth' alice_bases ""%string) by exact Ha.
      now rewrite (nth_error_nth' bob_bases ""%string) by exact Hb. }
    rewrite <- Eag. destruct (agree_at i) eqn:E.
    + rewrite (nth_error_nth' alice_bits 0) by exact Hi.
      rewrite (nth_error_nth' bob_bits 0) by (now apply Hbits).
      rewrite IH by assumption. now rewrite <- !app_assoc.
    + now rewrite IH.
Qed.

Lemma sifted_trials_readable :
  (n <= length alice_bases)%nat -> (n <= length bob_bases)%nat ->
  (forall i, (i < n)%nat -> agree_at i = true -> (i < length bob_bits)%nat) ->
  Script.sift_keys alice_bases bob_bases alice_bits bob_bits =
  Some (map a_at (sifted_trials alice_bases bob_bases n),
        map b_at (sifted_trials alice_bases bob_bases n),
        sifted_trials alice_bases bob_bases n).
Proof.
  intros Ha Hb Hbits. unfold Script.sift_keys.
  rewrite script_sift_loop_readable.
  - unfold range, sifted_trials, agree_at, n. now rewrite Nat2Z.id.
  - unfold range. rewrite Nat2Z.id. apply Forall_forall. intros i Hi.
    apply in_seq in Hi. unfold readable. fold n in Hi.
    repeat split; try lia. apply Hbits. lia.
Qed.

Lemma app_sift_from_script (r : list Z * list Z * list nat) :
  Script.sift_keys alice_bases bob_bases alice_bits bob_bits = Some r ->
  App.sift_keys alice_bases bob_bases alice_bits bob_bits =
  Some (fst (fst r), snd (fst r)).
Proof.
  intros H. unfold App.sift_keys.
  rewrite (sift_loops_lockstep _ [] [] []).
  unfold Script.sift_keys in H. rewrite H. now destruct r as [[a b] c].
Qed.

End MoreSifting.

(** X5. The app's [sift_keys] is the script's without the index list, on
    all inputs: both raise together, and otherwise return the same keys. *)
Theorem app_sift_is_script_sift (alice_bases bob_bases : list string)
  (alice_bits bob_bits : list Z) :
  App.sift_keys alice_bases bob_bases alice_bits bob_bits =
  option_map (fun '(a, b, _) => (a, b))
             (Script.sift_keys alice_bases bob_bases alice_bits bob_bits).
Proof. apply sift_loops_lockstep. Qed.

(** X6. [sift_keys] reads the bases of every trial of [alice_bits] and the
    receiver's bit of every kept trial, and nothing else: when both bases
    lists cover [alice_bits] and [bob_bits] covers the kept trials, it
    returns the kept trials' bits, however long the lists are beyond
    that. *)
Theorem sift_keys_reads_what_it_needs (alice_bases bob_bases : list string)
  (alice_bits bob_bits : list Z) :
  let n := length alice_bits in
  let kept := sifted_trials alice_bases bob_bases n in
  (n <= length alice_bases)%nat -> (n <= length bob_bases)%nat ->
  (forall i, In i kept -> (i < length bob_bits)%nat) ->
  Script.sift_keys alice_bases bob_bases alice_bits bob_bits =
    Some (map (fun i => nth i alice_bits 0) kept,
          map (fun i => nth i bob_bits 0) kept, kept) /\
  App.sift_keys alice_bases bob_bases alice_bits bob_bits =
    Some (map (fun i => nth i alice_bits 0) kept,
          map (fun i => nth i bob_bits 0) kept).
Proof.
  intros n kept Ha Hb Hbits.
  assert (H : Script.sift_keys alice_bases bob_bases alice_bits bob_bits =
              Some (map (fun i => nth i alice_bits 0) kept,
                    map (fun i => nth i bob_bits 0) kept, kept)).
  { apply sifted_trials_readable; try assumption.
    intros i Hi Hag. apply Hbits. unfold kept, sifted_trials.
    apply filter_In. split; [apply in_seq; lia | exact Hag]. }
  split; [exact H |].
  now rewrite (app_sift_from_script _ _ _ _ _ H).
Qed.

(** X7. [sift_keys] raises [IndexError] when a bases list is shorter than
    [alice_bits], and when a trial with equal bases has no receiver bit. *)
Theorem sift_keys_raises (alice_bases bob_bases : list string)
  (alice_bits bob_bits : list Z) :
  (length alice_bases < length alice_bits)%nat \/
  (length bob_bases < length alice_bits)%nat \/
  (exists i, (i < length alice_bits)%nat /\
             bases_agree alice_bases bob_bases i = true /\
             (length bob_bits <= i)%nat) ->
  Script.sift_keys alice_bases bob_bases alice_bits bob_bits = None /\
  App.sift_keys alice_bases bob_bases alice_bits bob_bits = None.
Proof.
  intros Hbad.
  assert (H : Script.sift_keys alice_bases bob_bases alice_bits bob_bits
              = None).
  { unfold Script.sift_keys, range. rewrite Nat2Z.id.
    destruct Hbad as [Ha | [Hb | (i & Hi & Hag & Hbits)]].
    - apply (for_loop_raises _ _ (length alice_bases));
        [apply in_seq; lia |].
      intros [[sa sb] ix]. unfold Script.sift_body, index.
      now rewrite (proj2 (nth_error_None alice_bases _) (Nat.le_refl _)).
    - apply (for_loop_raises _ _ (length bob_bases));
        [apply in_seq; lia |].
      intros [[sa sb] ix]. unfold Script.sift_body, index.
      rewrite (proj2 (nth_error_None bob_bases _) (Nat.le_refl _)).
      now destruct (nth_error alice_bases (length bob_bases)).
    - apply (for_loop_raises _ _ i); [apply in_seq; lia |].
      intros [[sa sb] ix]. unfold Script.sift_body, index.
      unfold bases_agree in Hag.
      destruct (nth_error alice_bases i) as [a |]; [| discriminate].
      destruct (nth_error bob_bases i) as [b |]; [| discriminate].
      rewrite Hag.
      rewrite (proj2 (nth_error_None bob_bits i) Hbits).
      now destruct (nth_error alice_bits i). }
  split; [exact H |].
  unfold App.sift_keys.
  rewrite (sift_loops_lockstep _ _ _ _ _ [] [] []).
  unfold Script.sift_keys in H. now rewrite H.
Qed.

Lemma bases_agree_same (bases : list string) (i : nat) :
  (i < length bases)%nat -> bases_agree bases bases i = true.
Proof.
  intros Hi. unfold bases_agree.
  rewrite (nth_error_nth' bases ""%string) by exact Hi.
  apply String.eqb_refl.
Qed.

(** X8. When both parties used the same bases nothing is discarded:
    [sift_keys] returns the two bit lists unchanged, and the script's
    indices are [0 .. n-1]. *)
Theorem sift_same_bases_keeps_all (bases : list string)
  (alice_bits bob_bits : list Z) :
  length bases = length alice_bits ->
  length bob_bits = length alice_bits ->
  Script.sift_keys bases bases alice_bits bob_bits =
    Some (alice_bits, bob_bits, seq 0 (length alice_bits)) /\
  App.sift_keys bases bases alice_bits bob_bits = Some (alice_bits, bob_bits).
Proof.
  intros Hb Hbits.
  assert (Hall : sifted_trials bases bases (length alice_bits) =
                 seq 0 (length alice_bits)).
  { unfold sifted_trials. apply forallb_filter_id, forallb_forall.
    intros i Hi. apply in_seq in Hi. apply bases_agree_same. lia. }
  assert (H : Script.sift_keys bases bases alice_bits bob_bits =
              Some (alice_bits, bob_bits, seq 0 (length alice_bits))).
  { rewrite script_sift_keys_eq by assumption. rewrite Hall.
    rewrite map_nth_seq. rewrite <- Hbits at 1. now rewrite map_nth_seq. }
  split; [exact H |].
  now rewrite (app_sift_from_script _ _ _ _ _ H).
Qed.

(** X9. When the parties' bases differ at every trial the sifted keys are
    empty, whatever the receiver's bits (even none at all), and the empty
    keys give a QBER of 0 and the "Low QBER" verdict. *)
Theorem sift_no_agreement_is_empty (alice_bases bob_bases : list string)
  (alice_bits bob_bits : list Z) :
  (length alice_bits <= length alice_bases)%nat ->
  (length alice_bits <= length bob_bases)%nat ->
  (forall i, (i < length alice_bits)%nat ->
             nth_error alice_bases i <> nth_error bob_bases i) ->
  Script.sift_keys alice_bases bob_bases alice_bits bob_bits =
    Some ([], [], []) /\
  App.sift_keys alice_bases bob_bases alice_bits bob_bits = Some ([], []) /\
  calculate_qber [] [] = Some 0%Q /\
  classify 0 = SecureLikely.
Proof.
  intros Ha Hb Hdiff.
  assert (Hnone : sifted_trials alice_bases bob_bases (length alice_bits)
                  = []).
  { unfold sifted_trials.
    rewrite (filter_ext_in _ (fun _ => false)); [now induction (seq _ _) |].
    intros i Hi. apply in_seq in Hi. unfold bases_agree.
    destruct (nth_error alice_bases i) as [a |] eqn:Ea; [| reflexivity].
    destruct (nth_error bob_bases i) as [b |] eqn:Eb; [| reflexivity].
    destruct (String.eqb_spec a b) as [-> | Hne]; [| reflexivity].
    exfalso. apply (Hdiff i); [lia | congruence]. }
  assert (H : Script.sift_keys alice_bases bob_bases alice_bits bob_bits =
              Some ([], [], [])).
  { rewrite sifted_trials_readable; try assumption.
    - now rewrite Hnone.
    - intros i Hi Hag. exfalso.
      assert (Hin : In i (sifted_trials alice_bases bob_bases
                                        (length alice_bits))).
      { unfold sifted_trials. apply filter_In.
        split; [apply in_seq; lia | exact Hag]. }
      rewrite Hnone in Hin. exact Hin. }
  split; [exact H |].
  split; [now rewrite (app_sift_from_script _ _ _ _ _ H) |].
  split; reflexivity.
Qed.

(** ** More on the error rate *)

Lemma count_errors_sym (key_a : list Z) :
  forall key_b, count_errors key_a key_b = count_errors key_b key_a.
Proof.
  induction key_a as [| a key_a IH]; intros [| b key_b]; try reflexivity.
  rewrite !count_errors_cons, IH, Z.eqb_sym. reflexivity.
Qed.

Lemma count_errors_le_min (key_a key_b : list Z) :
  count_errors key_a key_b <=
  Z.of_nat (Nat.min (length key_a) (length key_b)).
Proof.
  pose proof (count_errors_bounds key_a key_b) as Ha.
  pose proof (count_errors_bounds key_b key_a) as Hb.
  rewrite (count_errors_sym key_b key_a) in Hb. lia.
Qed.

Lemma count_errors_zero_iff (key_a : list Z) :
  forall key_b, length key_a = length key_b ->
                (count_errors key_a key_b = 0 <-> key_a = key_b).
Proof.
  induction key_a as [| a key_a IH]; intros [| b key_b] Hlen;
    try discriminate; [now split |].
  injection Hlen as Hlen. rewrite count_errors_cons.
  pose proof (count_errors_bounds key_a key_b) as Hb.
  specialize (IH key_b Hlen).
  destruct (Z.eqb_spec a b) as [-> | Hne]; split; intros H.
  - f_equal. apply IH. lia.
  - injection H as H. apply IH in H. lia.
  - lia.
  - injection H as H _. contradiction.
Qed.

(** What [calculate_qber] returns on a key that is not empty. *)
Lemma calculate_qber_cons (a : Z) (key_a key_b : list Z) :
  calculate_qber (a :: key_a) key_b =
  Some (count_errors (a :: key_a) key_b # Pos.of_nat (S (length key_a))).
Proof.
  unfold calculate_qber, truediv.
  change (length (a :: key_a)) with (S (length key_a)).
  rewrite to_pos_of_nat_succ.
  destruct (Z.eqb_spec (Z.of_nat (S (length key_a))) 0) as [E | _];
    [lia | reflexivity].
Qed.

Lemma Zpos_of_nat_succ (k : nat) :
  Z.pos (Pos.of_nat (S k)) = Z.of_nat (S k).
Proof. rewrite <- Pos.of_nat_succ, Zpos_P_of_succ_nat. lia. Qed.

(** X10. On keys of one length the QBER is zero exactly when the two keys
    are the same list. *)
Theorem qber_zero_iff_keys_equal (key_a key_b : list Z) :
  length key_a = length key_b ->
  exists q, calculate_qber key_a key_b = Some q /\
            ((q == 0)%Q <-> key_a = key_b).
Proof.
  intros Hlen. destruct key_a as [| a key_a].
  - destruct key_b; [| discriminate]. exists 0%Q. now repeat split.
  - rewrite calculate_qber_cons. eexists. split; [reflexivity |].
    rewrite <- (count_errors_zero_iff (a :: key_a) key_b Hlen).
    unfold Qeq. cbn [Qnum Qden]. lia.
Qed.

(** X11. On keys of one length the QBER does not depend on which key comes
    first. *)
Theorem qber_symmetric (key_a key_b : list Z) :
  length key_a = length key_b ->
  calculate_qber key_a key_b = calculate_qber key_b key_a.
Proof.
  intros Hlen. destruct key_a as [| a key_a], key_b as [| b key_b];
    try discriminate; [reflexivity |].
  rewrite !calculate_qber_cons, count_errors_sym.
  injection Hlen as Hlen. now rewrite Hlen.
Qed.

(** X12. [zip] stops at the shorter key: bits of [key_b] beyond
    [len(key_a)] are ignored, and bits missing from [key_b] are not counted
    as errors, so the rate is at most [min(len a, len b) / len a]; against
    an empty [key_b] it is 0. *)
Theorem qber_counts_compared_bits_only (key_a key_b : list Z) :
  calculate_qber key_a (firstn (length key_a) key_b) =
    calculate_qber key_a key_b /\
  exists q,
    calculate_qber key_a key_b = Some q /\
    (q <= Z.of_nat (Nat.min (length key_a) (length key_b))
          # Pos.of_nat (length key_a))%Q /\
    (key_b = [] -> (q == 0)%Q).
Proof.
  split.
  - unfold calculate_qber, count_errors. now rewrite <- combine_firstn_l.
  - destruct key_a as [| a key_a].
    + exists 0%Q. repeat split; discriminate.
    + rewrite calculate_qber_cons. eexists. split; [reflexivity |].
      pose proof (count_errors_le_min (a :: key_a) key_b) as Hmin.
      change (length (a :: key_a)) with (S (length key_a)) in *.
      split.
      * unfold Qle. cbn [Qnum Qden]. nia.
      * intros ->. reflexivity.
Qed.

(** X13. The verdict in whole numbers: the run is flagged exactly when the
    errors are more than 15 percent of [key_a], that is when
    [20 * errors > 3 * len(key_a)]. *)
Theorem flagged_iff_errors_exceed (key_a key_b : list Z) (q : Q) :
  calculate_qber key_a key_b = Some q ->
  (classify q = EavesdroppingSuspected <->
   3 * Z.of_nat (length key_a) < 20 * count_errors key_a key_b).
Proof.
  intros Hq. rewrite classify_suspected.
  destruct key_a as [| a key_a].
  - simpl in Hq. injection Hq as <-. unfold count_errors. simpl.
    split; [discriminate | lia].
  - rewrite calculate_qber_cons in Hq.
    change (length (a :: key_a)) with (S (length key_a)).
    pose proof (Zpos_of_nat_succ (length key_a)) as Hp.
    set (p := Pos.of_nat (S (length key_a))) in *. clearbody p.
    assert (Eq : q = count_errors (a :: key_a) key_b # p) by congruence.
    subst q. unfold Qlt, threshold. cbn [Qnum Qden]. lia.
Qed.

(** X14. Both bars of [plot_qber_bar] fit the axis: for a rate returned by
    [calculate_qber] the two heights lie between 0 and 100, the limits
    passed to [set_ylim]. *)
Theorem qber_bars_within_axis (key_a key_b : list Z) (q : Q) :
  calculate_qber key_a key_b = Some q ->
  (0 <= fst (qber_bars q) <= 100)%Q /\ (0 <= snd (qber_bars q) <= 100)%Q.
Proof.
  intros Hq.
  destruct (calculate_qber_total key_a key_b) as (q' & Hq' & H0 & H1).
  assert (q' = q) by congruence. subst q'.
  unfold qber_bars. cbn [fst snd]. repeat split; lra.
Qed.

(** ** Interception of prepared qubits *)

Section MoreInterception.

Context {G : Type} (next : G -> Z * G).

Lemma encode_qubits_no_measure (bits : list Z) (bases : list string) :
  Forall (fun qc => ~ In Measure qc) (encode_qubits bits bases).
Proof.
  unfold encode_qubits. apply Forall_forall. intros qc Hqc.
  apply in_map_iff in Hqc. destruct Hqc as ([bit base] & <- & _).
  unfold encode_qubit.
  destruct (bit =? 1), (String.eqb base X_basis); simpl;
    intuition discriminate.
Qed.

(** Intercepting circuits that do not measure by themselves takes one
    backend draw per circuit and none of Python's. *)
Lemma resend_each_world (circuits : list QuantumCircuit) :
  forall (bases : list string) (w : World G),
    length bases = length circuits ->
    Forall (fun qc => ~ In Measure qc) circuits ->
    exists results,
      for_each (fun '(qc, b) => resend next qc b) (combine circuits bases) w =
        Some (encode_qubits results bases,
              mkWorld (py_random w)
                      (advance next (backend_random w) (length circuits))) /\
      length results = length circuits /\
      Forall is_bit results.
Proof.
  induction circuits as [| qc circuits IH]; intros [| b bases] w Hlen Hall;
    try discriminate.
  - exists []. destruct w. repeat split; constructor.
  - injection Hlen as Hlen. inversion Hall as [| ? ? Hqc Hrest]; subst.
    destruct (execute_one_shot next qc b w Hqc) as (r & Hr).
    destruct (IH bases (mkWorld (py_random w)
                                (snd (next (backend_random w)))) Hlen Hrest)
      as (rs & Hrs & Hl & Hbits).
    exists (r :: rs). simpl. unfold resend at 1.
    erewrite bind_some; [| erewrite bind_some by exact Hr; reflexivity].
    erewrite bind_some by exact Hrs.
    repeat split.
    + simpl. now f_equal.
    + constructor; [eapply execute_measured; exact Hr | exact Hbits].
Qed.

Lemma app_eve_intercept_at (k : nat) (bits : list Z) (bases : list string)
  (w : World G) :
  length bits = k -> length bases = k ->
  exists heard,
    App.eve_intercept next (encode_qubits bits bases) w =
      Some (encode_qubits heard
                          (map pick_basis (draws next (py_random w) k)),
            mkWorld (advance next (py_random w) k)
                    (advance next (backend_random w) k)) /\
    length heard = k /\ Forall is_bit heard.
Proof.
  intros Lbits Lbases.
  assert (Lc : length (encode_qubits bits bases) = k)
    by (rewrite encode_qubits_length; congruence).
  set (eve := map pick_basis (draws next (py_random w) k)).
  assert (Le : length eve = length (encode_qubits bits bases))
    by (unfold eve; now rewrite length_map, draws_length).
  destruct (resend_each_world (encode_qubits bits bases) eve
              (mkWorld (advance next (py_random w) k) (backend_random w))
              Le (encode_qubits_no_measure bits bases))
    as (heard & Hloop & Hl & Hb).
  exists heard. split; [| split; [congruence | exact Hb]].
  unfold App.eve_intercept.
  rewrite (bind_some _ _ _ _ _ (eve_bases_drawn next _ w)).
  rewrite Lc. fold eve.
  rewrite app_eve_loop_zip by exact Le.
  rewrite Hloop, Lc. reflexivity.
Qed.

Lemma script_eve_intercept_at (k : nat) (bits : list Z) (bases : list string)
  (w : World G) :
  length bits = k -> length bases = k ->
  exists heard,
    Script.eve_intercept next (encode_qubits bits bases) w =
      Some ((encode_qubits heard
                           (map pick_basis (draws next (py_random w) k)),
             map pick_basis (draws next (py_random w) k)),
            mkWorld (advance next (py_random w) k)
                    (advance next (backend_random w) k)) /\
    length heard = k /\ Forall is_bit heard.
Proof.
  intros Lbits Lbases.
  assert (Lc : length (encode_qubits bits bases) = k)
    by (rewrite encode_qubits_length; congruence).
  set (eve := map pick_basis (draws next (py_random w) k)).
  assert (Le : length eve = length (encode_qubits bits bases))
    by (unfold eve; now rewrite length_map, draws_length).
  destruct (resend_each_world (encode_qubits bits bases) eve
              (mkWorld (advance next (py_random w) k) (backend_random w))
              Le (encode_qubits_no_measure bits bases))
    as (heard & Hloop & Hl & Hb).
  exists heard. split; [| split; [congruence | exact Hb]].
  unfold Script.eve_intercept.
  rewrite (bind_some _ _ _ _ _ (eve_bases_drawn next _ w)).
  rewrite Lc. fold eve.
  erewrite bind_some; [reflexivity |].
  rewrite script_eve_loop_zip by exact Le.
  rewrite Hloop, Lc. reflexivity.
Qed.

(** Measuring prepared qubits takes one backend draw per qubit. *)
Lemma measure_encoded_at (k : nat) (bits : list Z) (bases bob : list string)
  (w : World G) :
  length bits = k -> length bases = k -> length bob = k ->
  exists results,
    measure_qubits next (encode_qubits bits bases) bob w =
      Some (results,
            mkWorld (py_random w) (advance next (backend_random w) k)) /\
    length results = k /\ Forall is_bit results.
Proof.
  intros Lbits Lbases Lbob.
  assert (Lc : length (encode_qubits bits bases) = k)
    by (rewrite encode_qubits_length; congruence).
  destruct (measure_zip_shape next (encode_qubits bits bases) bob w)
    as (results & w' & Hm & Hl & Hb & Hpy & Hbk);
    [rewrite Lc, Lbob; apply Nat.le_refl |].
  exists results. split; [| split; [congruence | exact Hb]].
  rewrite measure_qubits_zip by (rewrite Lc, Lbob; apply Nat.le_refl).
  rewrite Hm. f_equal. f_equal.
  specialize (Hbk (encode_qubits_no_measure bits bases)).
  destruct w' as [p b]. simpl in *. subst. now rewrite Lc.
Qed.

End MoreInterception.

(** ** What a run computes *)

Section MoreRuns.

Context {G : Type} (next : G -> Z * G).

Lemma app_sift_keys_at (k : nat) (alice_bases bob_bases : list string)
  (alice_bits bob_bits : list Z) :
  length alice_bits = k -> length alice_bases = k ->
  length bob_bases = k -> length bob_bits = k ->
  App.sift_keys alice_bases bob_bases alice_bits bob_bits =
  Some (map (fun i => nth i alice_bits 0) (sifted_trials alice_bases bob_bases k),
        map (fun i => nth i bob_bits 0) (sifted_trials alice_bases bob_bases k)).
Proof. intros <- H1 H2 H3. now apply app_sift_keys_eq. Qed.

Lemma script_sift_keys_at (k : nat) (alice_bases bob_bases : list string)
  (alice_bits bob_bits : list Z) :
  length alice_bits = k -> length alice_bases = k ->
  length bob_bases = k -> length bob_bits = k ->
  Script.sift_keys alice_bases bob_bases alice_bits bob_bits =
  Some (map (fun i => nth i alice_bits 0) (sifted_trials alice_bases bob_bases k),
        map (fun i => nth i bob_bits 0) (sifted_trials alice_bases bob_bases k),
        sifted_trials alice_bases bob_bases k).
Proof. intros <- H1 H2 H3. now apply script_sift_keys_eq. Qed.

Lemma drawn_length {A} (f : Z -> A) (g : G) (k : nat) :
  length (map f (draws next g k)) = k.
Proof. now rewrite length_map, draws_length. Qed.

(** The records of the app's run, written out in terms of the draws of
    Python's generator; the receiver's bits are whatever the backend
    returned. *)
Lemma app_run_explicit (n : Z) (eve_present : bool) (w : World G) :
  let k := Z.to_nat n in
  let py := py_random w in
  let bk := backend_random w in
  let bits := map (fun r => r mod 2) (draws next py k) in
  let bases := map pick_basis (draws next (advance next py k) k) in
  let py2 := advance next py (k + k) in
  let bob := map pick_basis (draws next py2 k) in
  let py3 := advance next py2 k in
  let w' :=
    if eve_present
    then mkWorld (advance next py3 k) (advance next (advance next bk k) k)
    else mkWorld py3 (advance next bk k) in
  let kept := sifted_trials bases bob k in
  exists results q,
    length results = k /\ Forall is_bit results /\
    calculate_qber (map (fun i => nth i bits 0) kept)
                   (map (fun i => nth i results 0) kept) = Some q /\
    App.run_simulation next n eve_present w =
    Some (App.mkResult bits bases bob results
                       (map (fun i => nth i bits 0) kept)
                       (map (fun i => nth i results 0) kept)
                       q (classify q), w').
Proof.
  intros k py bk bits bases py2 bob py3 w' kept.
  assert (Lbits : length bits = k) by apply drawn_length.
  assert (Lbases : length bases = k) by apply drawn_length.
  assert (Lbob : length bob = k) by apply drawn_length.
  assert (Hmid : exists circuits_bits circuits_bases,
             (if eve_present
              then App.eve_intercept next (encode_qubits bits bases)
              else ret (encode_qubits bits bases))
               (mkWorld py3 bk) =
             Some (encode_qubits circuits_bits circuits_bases,
                   mkWorld (if eve_present then advance next py3 k else py3)
                           (if eve_present then advance next bk k else bk)) /\
             length circuits_bits = k /\ length circuits_bases = k).
  { destruct eve_present.
    - destruct (app_eve_intercept_at next k bits bases (mkWorld py3 bk)
                  Lbits Lbases) as (heard & Heve & Lh & _).
      eexists heard, _. split; [exact Heve |].
      split; [exact Lh | apply drawn_length].
    - exists bits, bases. repeat split; assumption. }
  destruct Hmid as (cbits & cbases & Hmid & Lcb & Lcs).
  destruct (measure_encoded_at next k cbits cbases bob
              (mkWorld (if eve_present then advance next py3 k else py3)
                       (if eve_present then advance next bk k else bk))
              Lcb Lcs Lbob) as (results & Hmeas & Lres & Bres).
  destruct (calculate_qber_total (map (fun i => nth i bits 0) kept)
                                 (map (fun i => nth i results 0) kept))
    as (q & Hq & _).
  exists results, q. split; [exact Lres |]. split; [exact Bres |].
  split; [exact Hq |].
  unfold App.run_simulation.
  erewrite bind_some by apply create_bits_bases_eq. cbv iota beta.
  erewrite bind_some
    by (rewrite for_each_choice, range_length; reflexivity).
  cbn [py_random backend_random]. fold k py bk. fold bits bases py2.
  fold bob py3.
  erewrite bind_some by exact Hmid.
  erewrite bind_some by exact Hmeas.
  erewrite bind_some
    by (unfold lift; rewrite (app_sift_keys_at k) by assumption;
        reflexivity).
  cbv iota beta. fold kept.
  erewrite bind_some by (unfold lift; rewrite Hq; reflexivity).
  unfold w'. destruct eve_present; reflexivity.
Qed.

(** The records of the script's run: the eavesdropper draws her bases
    before the receiver draws his. *)
Lemma script_run_explicit (n : Z) (w : World G) :
  let k := Z.to_nat n in
  let py := py_random w in
  let bk := backend_random w in
  let bits := map (fun r => r mod 2) (draws next py k) in
  let bases := map pick_basis (draws next (advance next py k) k) in
  let py2 := advance next py (k + k) in
  let eve := map pick_basis (draws next py2 k) in
  let py3 := advance next py2 k in
  let bob := map pick_basis (draws next py3 k) in
  let w' := mkWorld (advance next py3 k)
                    (advance next (advance next bk k) k) in
  let kept := sifted_trials bases bob k in
  exists results q,
    length results = k /\ Forall is_bit results /\
    calculate_qber (map (fun i => nth i bits 0) kept)
                   (map (fun i => nth i results 0) kept) = Some q /\
    Script.main_with next n w =
    Some (Script.mkResult bits bases eve bob results
                          (map (fun i => nth i bits 0) kept)
                          (map (fun i => nth i results 0) kept)
                          kept q (classify q), w').
Proof.
  intros k py bk bits bases py2 eve py3 bob w' kept.
  assert (Lbits : length bits = k) by apply drawn_length.
  assert (Lbases : length bases = k) by apply drawn_length.
  assert (Lbob : length bob = k) by apply drawn_length.
  assert (Leve : length eve = k) by apply drawn_length.
  destruct (script_eve_intercept_at next k bits bases (mkWorld py2 bk)
              Lbits Lbases) as (heard & Heve & Lh & _).
  cbn [py_random backend_random] in Heve. fold eve py3 in Heve.
  destruct (measure_encoded_at next k heard eve bob
              (mkWorld (advance next py3 k) (advance next bk k))
              Lh Leve Lbob) as (results & Hmeas & Lres & Bres).
  destruct (calculate_qber_total (map (fun i => nth i bits 0) kept)
                                 (map (fun i => nth i results 0) kept))
    as (q & Hq & _).
  exists results, q. split; [exact Lres |]. split; [exact Bres |].
  split; [exact Hq |].
  unfold Script.main_with.
  erewrite bind_some
    by (rewrite create_alice_bits_eq; apply create_bits_bases_eq).
  cbv iota beta.
  cbn [py_random backend_random]. fold k py bk. fold bits bases py2.
  erewrite bind_some by exact Heve.
  cbv iota beta.
  erewrite bind_some
    by (rewrite for_each_choice, range_length; reflexivity).
  cbn [py_random backend_random]. fold k bob.
  erewrite bind_some by exact Hmeas.
  erewrite bind_some
    by (unfold lift; rewrite (script_sift_keys_at k) by assumption;
        reflexivity).
  cbv iota beta. fold kept.
  erewrite bind_some by (unfold lift; rewrite Hq; reflexivity).
  reflexivity.
Qed.

End MoreRuns.

(** ** What a user can rely on *)

Section RunGuarantees.

Context {G : Type} (next : G -> Z * G).

Lemma advance_times_3 (g : G) (k : nat) :
  advance next (advance next g (k + k)) k = advance next g (3 * k).
Proof. rewrite <- advance_add. f_equal. lia. Qed.

Lemma advance_times_4 (g : G) (k : nat) :
  advance next (advance next (advance next g (k + k)) k) k =
  advance next g (4 * k).
Proof. rewrite <- !advance_add. f_equal. lia. Qed.

Lemma advance_times_2 (g : G) (k : nat) :
  advance next (advance next g k) k = advance next g (2 * k).
Proof. rewrite <- advance_add. f_equal. lia. Qed.

(** X16. The app's run never raises, for any [n] and either setting of the
    checkbox.  It returns [max n 0] trials of well-formed bits and bases,
    two sifted keys of one length no longer than that, a QBER between 0
    and 1 and the verdict of that QBER; it takes three draws per qubit
    from Python's generator and one from the backend, and one more of each
    per qubit when the eavesdropper is present. *)
Theorem app_run_never_raises (n : Z) (eve_present : bool) (w : World G) :
  let k := Z.to_nat n in
  exists res w',
    App.run_simulation next n eve_present w = Some (res, w') /\
    (length (App.alice_bits res) = k /\ length (App.alice_bases res) = k /\
     length (App.bob_bases res) = k /\ length (App.bob_results res) = k) /\
    (Forall is_bit (App.alice_bits res) /\
     Forall is_basis (App.alice_bases res) /\
     Forall is_basis (App.bob_bases res) /\
     Forall is_bit (App.bob_results res)) /\
    (length (App.key_a res) = length (App.key_b res) /\
     (length (App.key_a res) <= k)%nat) /\
    (0 <= App.qber res <= 1)%Q /\
    App.verdict res = classify (App.qber res) /\
    py_random w' =
      advance next (py_random w) ((if eve_present then 4 else 3) * k) /\
    backend_random w' =
      advance next (backend_random w) ((if eve_present then 2 else 1) * k).
Proof.
  intros k.
  destruct (app_run_explicit next n eve_present w)
    as (results & q & Lres & Bres & Hq & Hrun).
  cbv zeta in Hq, Hrun. fold k in Hq, Hrun, Lres.
  eexists _, _. split; [exact Hrun |]. cbn [App.alice_bits App.alice_bases
    App.bob_bases App.bob_results App.key_a App.key_b App.qber App.verdict].
  split.
  { repeat split; try apply drawn_length. exact Lres. }
  split.
  { repeat split; try apply drawn_bits; try apply drawn_bases. exact Bres. }
  split.
  { rewrite !length_map. split; [reflexivity | apply sifted_trials_length]. }
  split.
  { match type of Hq with
    | calculate_qber ?a ?b = _ =>
        destruct (calculate_qber_total a b) as (q' & Hq' & H0 & H1)
    end.
    rewrite Hq in Hq'. injection Hq' as <-. now split. }
  split; [reflexivity |].
  destruct eve_present; cbn [py_random backend_random]; split;
    rewrite ?advance_times_4, ?advance_times_3, ?advance_times_2;
    try reflexivity; f_equal; lia.
Qed.

(** X17. The script's run never raises either: [main]'s body returns
    [max n 0] trials, as many eavesdropper bases, two sifted keys and an
    index list of one length no longer than that, the indices increasing,
    a QBER between 0 and 1 and its verdict, after four draws per qubit
    from Python's generator and two from the backend. *)
Theorem script_run_never_raises (n : Z) (w : World G) :
  let k := Z.to_nat n in
  exists res,
    Script.main_with next n w =
      Some (res, mkWorld (advance next (py_random w) (4 * k))
                         (advance next (backend_random w) (2 * k))) /\
    (length (Script.alice_bits res) = k /\
     length (Script.alice_bases res) = k /\
     length (Script.eve_bases res) = k /\
     length (Script.bob_bases res) = k /\
     length (Script.bob_results res) = k) /\
    (Forall is_bit (Script.alice_bits res) /\
     Forall is_basis (Script.alice_bases res) /\
     Forall is_basis (Script.eve_bases res) /\
     Forall is_basis (Script.bob_bases res) /\
     Forall is_bit (Script.bob_results res)) /\
    (length (Script.alice_key res) = length (Script.bob_key res) /\
     length (Script.indices res) = length (Script.alice_key res) /\
     (length (Script.indices res) <= k)%nat /\
     StronglySorted lt (Script.indices res)) /\
    (0 <= Script.qber res <= 1)%Q /\
    Script.verdict res = classify (Script.qber res).
Proof.
  intros k.
  destruct (script_run_explicit next n w)
    as (results & q & Lres & Bres & Hq & Hrun).
  cbv zeta in Hq, Hrun. fold k in Hq, Hrun, Lres.
  rewrite advance_times_4, advance_times_2 in Hrun.
  eexists. split; [exact Hrun |]. cbn [Script.alice_bits Script.alice_bases
    Script.eve_bases Script.bob_bases Script.bob_results Script.alice_key
    Script.bob_key Script.indices Script.qber Script.verdict].
  split.
  { repeat split; try apply drawn_length. exact Lres. }
  split.
  { repeat split; try apply drawn_bits; try apply drawn_bases. exact Bres. }
  split.
  { rewrite !length_map. repeat split.
    - apply sifted_trials_length.
    - apply filter_strongly_sorted, seq_strongly_sorted. }
  split; [| reflexivity].
  match type of Hq with
  | calculate_qber ?a ?b = _ =>
      destruct (calculate_qber_total a b) as (q' & Hq' & H0 & H1)
  end.
  rewrite Hq in Hq'. injection Hq' as <-. now split.
Qed.

(** X21. The two programs do not consume the draws in the same order: the
    app draws the receiver's bases before the eavesdropper's, the script
    after.  From one world, with the eavesdropper present, both return,
    with the same sender bits and bases and in the same final world, but
    the bases the script gives the eavesdropper are the ones the app gives
    the receiver. *)
Theorem app_and_script_swap_draws (n : Z) (w : World G) :
  exists res_app res_script w',
    App.run_simulation next n true w = Some (res_app, w') /\
    Script.main_with next n w = Some (res_script, w') /\
    Script.alice_bits res_script = App.alice_bits res_app /\
    Script.alice_bases res_script = App.alice_bases res_app /\
    Script.eve_bases res_script = App.bob_bases res_app.
Proof.
  destruct (app_run_explicit next n true w) as (ra & qa & _ & _ & _ & Ha).
  destruct (script_run_explicit next n w) as (rs & qs & _ & _ & _ & Hs).
  cbv zeta in Ha, Hs.
  eexists _, _, _. split; [exact Ha |]. split; [exact Hs |].
  repeat split.
Qed.

(** X22. The eavesdropper changes only what the receiver reads: from one
    world, the app's runs with and without her return the same sender
    bits, the same bases for both parties and the same sender key; they
    can differ only in the receiver's bits, hence in his key, the QBER and
    the verdict. *)
Theorem eve_changes_only_receiver_bits (n : Z) (w : World G) :
  exists res0 res1 w0 w1,
    App.run_simulation next n false w = Some (res0, w0) /\
    App.run_simulation next n true w = Some (res1, w1) /\
    App.alice_bits res0 = App.alice_bits res1 /\
    App.alice_bases res0 = App.alice_bases res1 /\
    App.bob_bases res0 = App.bob_bases res1 /\
    App.key_a res0 = App.key_a res1 /\
    length (App.key_b res0) = length (App.key_b res1).
Proof.
  destruct (app_run_explicit next n false w) as (r0 & q0 & _ & _ & _ & H0).
  destruct (app_run_explicit next n true w) as (r1 & q1 & _ & _ & _ & H1).
  cbv zeta in H0, H1.
  eexists _, _, _, _. split; [exact H0 |]. split; [exact H1 |].
  cbn [App.alice_bits App.alice_bases App.bob_bases App.key_a App.key_b].
  repeat split. now rewrite !length_map.
Qed.

End RunGuarantees.

(** ** What a seed of Python's generator fixes *)

Section SeedOfPython.

Context {G1 G2 : Type} (next1 : G1 -> Z * G1) (next2 : G2 -> Z * G2).

Lemma same_draws_advance (k : nat) :
  forall (g1 : G1) (g2 : G2),
    same_draws next1 next2 g1 g2 ->
    same_draws next1 next2 (advance next1 g1 k) (advance next2 g2 k).
Proof.
  induction k as [| k IH]; intros g1 g2 H; [exact H |].
  simpl. apply IH. now apply same_draws_step.
Qed.

(** C9, as the code has it.  Two runs with the same [n] and flag, started
    from the same state of Python's [random] module (as the same seed gives
    it), whatever the states of the backend's sampler, both return and
    agree on the sender's bits, on the bases of both parties (and of the
    eavesdropper, which the script records), on the kept trials and on the
    sender's sifted key; the receiver's key has the same length in both.
    The receiver's bits, the QBER and the verdict are not part of it: they
    also depend on the backend's draws, which the code never seeds. *)
Theorem python_seed_fixes_sender_side (n : Z) (eve_present : bool)
  (w1 : World G1) (w2 : World G2) :
  same_draws next1 next2 (py_random w1) (py_random w2) ->
  (exists r1 r2 w1' w2',
      App.run_simulation next1 n eve_present w1 = Some (r1, w1') /\
      App.run_simulation next2 n eve_present w2 = Some (r2, w2') /\
      App.alice_bits r1 = App.alice_bits r2 /\
      App.alice_bases r1 = App.alice_bases r2 /\
      App.bob_bases r1 = App.bob_bases r2 /\
      App.key_a r1 = App.key_a r2 /\
      length (App.key_b r1) = length (App.key_b r2)) /\
  (exists s1 s2 w1' w2',
      Script.main_with next1 n w1 = Some (s1, w1') /\
      Script.main_with next2 n w2 = Some (s2, w2') /\
      Script.alice_bits s1 = Script.alice_bits s2 /\
      Script.alice_bases s1 = Script.alice_bases s2 /\
      Script.eve_bases s1 = Script.eve_bases s2 /\
      Script.bob_bases s1 = Script.bob_bases s2 /\
      Script.indices s1 = Script.indices s2 /\
      Script.alice_key s1 = Script.alice_key s2 /\
      length (Script.bob_key s1) = length (Script.bob_key s2)).
Proof.
  intros Hpy. set (k := Z.to_nat n).
  pose proof (Hpy k) as E0.
  pose proof (same_draws_advance k _ _ Hpy k) as E1.
  pose proof (same_draws_advance (k + k) _ _ Hpy) as Hpy2.
  pose proof (Hpy2 k) as E2.
  pose proof (same_draws_advance k _ _ Hpy2 k) as E3.
  split.
  - destruct (app_run_explicit next1 n eve_present w1)
      as (res1 & q1 & _ & _ & _ & H1).
    destruct (app_run_explicit next2 n eve_present w2)
      as (res2 & q2 & _ & _ & _ & H2).
    cbv zeta in H1, H2. fold k in H1, H2.
    eexists _, _, _, _. split; [exact H1 |]. split; [exact H2 |].
    cbn [App.alice_bits App.alice_bases App.bob_bases App.key_a App.key_b].
    rewrite E0, E1, E2, !length_map. repeat split.
  - destruct (script_run_explicit next1 n w1)
      as (res1 & q1 & _ & _ & _ & H1).
    destruct (script_run_explicit next2 n w2)
      as (res2 & q2 & _ & _ & _ & H2).
    cbv zeta in H1, H2. fold k in H1, H2.
    eexists _, _, _, _. split; [exact H1 |]. split; [exact H2 |].
    cbn [Script.alice_bits Script.alice_bases Script.eve_bases
         Script.bob_bases Script.indices Script.alice_key Script.bob_key].
    rewrite E0, E1, E2, E3, !length_map. repeat split.
Qed.

End SeedOfPython.

(** ** Concrete instances

    The replayable generator stands for a seeded source; the scenario is
    the one of the specification: four trials, sender bits 0 1 1 0, sender
    bases Z Z X X, receiver bases Z X X Z. *)

Lemma sifting_correct_witness :
  length scenario_alice = length scenario_bits /\
  length scenario_bob = length scenario_bits /\
  length [0; 0; 1; 1] = length scenario_bits /\
  Script.sift_keys scenario_alice scenario_bob scenario_bits [0; 0; 1; 1] =
    Some ([0; 1], [0; 1], [0%nat; 2%nat]) /\
  App.sift_keys scenario_alice scenario_bob scenario_bits [0; 0; 1; 1] =
    Some ([0; 1], [0; 1]).
Proof.
  pose proof (sifting_correct scenario_alice scenario_bob scenario_bits
                [0; 0; 1; 1] eq_refl eq_refl eq_refl) as H.
  cbv zeta in H.
  do 3 (split; [reflexivity |]).
  split; [exact (proj1 H) | exact (proj1 (proj2 H))].
Defined.

Lemma sifted_keys_same_length_witness :
  length scenario_alice = length scenario_bits /\
  length scenario_bob = length scenario_bits /\
  length [0; 0; 1; 1] = length scenario_bits /\
  exists sa sb ix,
    Script.sift_keys scenario_alice scenario_bob scenario_bits [0; 0; 1; 1] =
      Some (sa, sb, ix) /\
    App.sift_keys scenario_alice scenario_bob scenario_bits [0; 0; 1; 1] =
      Some (sa, sb) /\
    length sa = length sb /\
    length ix = length sa /\
    length (combine sa sb) = length sa.
Proof.
  do 3 (split; [reflexivity |]).
  apply (sifted_keys_same_length scenario_alice scenario_bob scenario_bits
           [0; 0; 1; 1] eq_refl eq_refl eq_refl).
Defined.

Lemma qber_postcondition_witness :
  length [0; 1; 1] = length [0; 0; 1] /\
  exists q,
    calculate_qber [0; 1; 1] [0; 0; 1] = Some q /\
    q = (1 # 3)%Q /\ (0 <= q)%Q /\ (q <= 1)%Q.
Proof.
  split; [reflexivity |].
  apply (qber_postcondition [0; 1; 1] [0; 0; 1] eq_refl).
Defined.

(** C8 as stated fails: a run asked for zero qubits, or a negative number
    of them, is not rejected. *)
Lemma nonpositive_n_not_rejected :
  value (App.run_simulation replay 0 true) scenario_world =
    Some (App.mkResult [] [] [] [] [] [] 0 SecureLikely) /\
  value (App.run_simulation replay (-3) false) scenario_world =
    Some (App.mkResult [] [] [] [] [] [] 0 SecureLikely) /\
  value (App.create_bits_bases replay 0) scenario_world = Some ([], []) /\
  ~ (forall n, n <= 0 ->
               value (App.run_simulation replay n true) scenario_world = None).
Proof.
  repeat split. intros H. specialize (H 0 (Z.le_refl 0)). discriminate H.
Qed.

Lemma nonpositive_n_runs_empty_witness :
  -3 <= 0 /\
  App.create_bits_bases replay (-3) scenario_world =
    Some (([], []), scenario_world) /\
  App.run_simulation replay (-3) true scenario_world =
    Some (App.mkResult [] [] [] [] [] [] 0 SecureLikely, scenario_world) /\
  Script.main_with replay (-3) scenario_world =
    Some (Script.mkResult [] [] [] [] [] [] [] [] 0 SecureLikely,
          scenario_world).
Proof.
  assert (H : -3 <= 0) by discriminate.
  split; [exact H |].
  apply (nonpositive_n_runs_empty replay (-3) true scenario_world H).
Defined.

Lemma replay_exhausted (k : nat) : draws replay [0] k = draws replay [] k.
Proof. destruct k; reflexivity. Defined.

(** A tape and the same tape with one more 0 give the same draws. *)
Lemma replay_trailing_zero (tape : list Z) :
  same_draws replay replay tape (tape ++ [0]).
Proof.
  induction tape as [| r tape IH]; intros k.
  - symmetry. apply replay_exhausted.
  - destruct k; [reflexivity |]. simpl. f_equal. apply IH.
Defined.

Lemma same_draws_same_result_witness :
  same_world replay replay
    scenario_world
    (mkWorld (py_random scenario_world ++ [0])
             (backend_random scenario_world ++ [0])) /\
  value (App.run_simulation replay 4 true) scenario_world =
    value (App.run_simulation replay 4 true)
          (mkWorld (py_random scenario_world ++ [0])
                   (backend_random scenario_world ++ [0])).
Proof.
  assert (H : same_world replay replay scenario_world
                (mkWorld (py_random scenario_world ++ [0])
                         (backend_random scenario_world ++ [0])))
    by (split; apply replay_trailing_zero).
  split; [exact H |].
  exact (proj1 (same_draws_same_result replay replay 4 true _ _ H)).
Defined.

(** C9 as stated fails: from one state of Python's generator, the state a
    fixed seed gives, two runs with the eavesdropper present differ as soon
    as the backend's fifth draw differs: the receiver's first bit, his
    key, the QBER and the verdict change. *)
Lemma python_seed_does_not_fix_run :
  py_random seeded_world_a = py_random seeded_world_b /\
  value (App.run_simulation replay 4 true) seeded_world_a =
    Some (App.mkResult scenario_bits scenario_alice scenario_bob [0; 0; 1; 0]
                       [0; 1] [0; 1] (0 # 2) SecureLikely) /\
  value (App.run_simulation replay 4 true) seeded_world_b =
    Some (App.mkResult scenario_bits scenario_alice scenario_bob [1; 0; 1; 0]
                       [0; 1] [1; 1] (1 # 2) EavesdroppingSuspected) /\
  value (App.run_simulation replay 4 true) seeded_world_a <>
    value (App.run_simulation replay 4 true) seeded_world_b.
Proof.
  split; [reflexivity |]. split; [reflexivity |]. split; [reflexivity |].
  discriminate.
Qed.

Lemma python_seed_fixes_sender_side_witness :
  same_draws replay replay (py_random seeded_world_a)
             (py_random seeded_world_b) /\
  exists r1 r2 w1' w2',
    App.run_simulation replay 4 true seeded_world_a = Some (r1, w1') /\
    App.run_simulation replay 4 true seeded_world_b = Some (r2, w2') /\
    App.alice_bits r1 = App.alice_bits r2 /\
    App.alice_bases r1 = App.alice_bases r2 /\
    App.bob_bases r1 = App.bob_bases r2 /\
    App.key_a r1 = App.key_a r2 /\
    length (App.key_b r1) = length (App.key_b r2).
Proof.
  assert (H : same_draws replay replay (py_random seeded_world_a)
                         (py_random seeded_world_b))
    by (intros k; reflexivity).
  split; [exact H |].
  exact (proj1 (python_seed_fixes_sender_side replay replay 4 true
                  seeded_world_a seeded_world_b H)).
Defined.

(** The scenario of the specification, run end to end without an
    eavesdropper on draws away from the rounding thresholds. *)
Example scenario_run :
  value (App.run_simulation replay 4 false) seeded_world_a =
  Some (App.mkResult scenario_bits scenario_alice scenario_bob [0; 0; 1; 0]
                     [0; 1] [0; 1] (0 # 2) SecureLikely).
Proof. reflexivity. Qed.

(** ** Concrete instances of the further properties *)

Lemma measure_qubits_shape_witness :
  (length (encode_qubits scenario_bits scenario_alice)
   <= length (scenario_bob ++ [Z_basis]))%nat /\
  exists results w',
    measure_qubits replay (encode_qubits scenario_bits scenario_alice)
                   (scenario_bob ++ [Z_basis]) scenario_world =
      Some (results, w') /\
    measure_qubits replay (encode_qubits scenario_bits scenario_alice)
                   (firstn (length (encode_qubits scenario_bits scenario_alice))
                           (scenario_bob ++ [Z_basis])) scenario_world =
      Some (results, w') /\
    length results = length (encode_qubits scenario_bits scenario_alice) /\
    Forall is_bit results /\
    py_random w' = py_random scenario_world /\
    (Forall (fun qc => ~ In Measure qc)
            (encode_qubits scenario_bits scenario_alice) ->
     backend_random w' =
     advance replay (backend_random scenario_world)
             (length (encode_qubits scenario_bits scenario_alice))).
Proof.
  assert (H : (length (encode_qubits scenario_bits scenario_alice)
               <= length (scenario_bob ++ [Z_basis]))%nat)
    by (simpl; lia).
  split; [exact H |].
  apply (measure_qubits_shape replay _ _ scenario_world H).
Defined.

Lemma sift_keys_reads_what_it_needs_witness :
  (length scenario_bits <= length scenario_alice)%nat /\
  (length scenario_bits <= length scenario_bob)%nat /\
  (forall i, In i (sifted_trials scenario_alice scenario_bob
                                 (length scenario_bits)) ->
             (i < length scenario_short_bob_bits)%nat) /\
  Script.sift_keys scenario_alice scenario_bob scenario_bits
                   scenario_short_bob_bits =
    Some ([0; 1], [0; 1], [0%nat; 2%nat]) /\
  App.sift_keys scenario_alice scenario_bob scenario_bits
                scenario_short_bob_bits = Some ([0; 1], [0; 1]).
Proof.
  assert (H1 : (length scenario_bits <= length scenario_alice)%nat)
    by (simpl; lia).
  assert (H2 : (length scenario_bits <= length scenario_bob)%nat)
    by (simpl; lia).
  assert (H3 : forall i, In i (sifted_trials scenario_alice scenario_bob
                                             (length scenario_bits)) ->
                         (i < length scenario_short_bob_bits)%nat).
  { intros i Hi. vm_compute in Hi.
    destruct Hi as [<- | [<- | []]]; simpl; lia. }
  split; [exact H1 |]. split; [exact H2 |]. split; [exact H3 |].
  exact (sift_keys_reads_what_it_needs scenario_alice scenario_bob
           scenario_bits scenario_short_bob_bits H1 H2 H3).
Defined.

Lemma sift_keys_raises_witness :
  ((length [Z_basis] < length scenario_bits)%nat \/
   (length scenario_bob < length scenario_bits)%nat \/
   (exists i, (i < length scenario_bits)%nat /\
              bases_agree [Z_basis] scenario_bob i = true /\
              (length [0; 0; 1; 1] <= i)%nat)) /\
  Script.sift_keys [Z_basis] scenario_bob scenario_bits [0; 0; 1; 1] = None /\
  App.sift_keys [Z_basis] scenario_bob scenario_bits [0; 0; 1; 1] = None.
Proof.
  assert (H : (length [Z_basis] < length scenario_bits)%nat \/
              (length scenario_bob < length scenario_bits)%nat \/
              (exists i, (i < length scenario_bits)%nat /\
                         bases_agree [Z_basis] scenario_bob i = true /\
                         (length [0; 0; 1; 1] <= i)%nat))
    by (left; simpl; lia).
  split; [exact H |].
  exact (sift_keys_raises [Z_basis] scenario_bob scenario_bits
           [0; 0; 1; 1] H).
Defined.

Lemma sift_same_bases_keeps_all_witness :
  length scenario_alice = length scenario_bits /\
  length [0; 0; 1; 1] = length scenario_bits /\
  Script.sift_keys scenario_alice scenario_alice scenario_bits [0; 0; 1; 1] =
    Some (scenario_bits, [0; 0; 1; 1], [0; 1; 2; 3]%nat) /\
  App.sift_keys scenario_alice scenario_alice scenario_bits [0; 0; 1; 1] =
    Some (scenario_bits, [0; 0; 1; 1]).
Proof.
  split; [reflexivity |]. split; [reflexivity |].
  exact (sift_same_bases_keeps_all scenario_alice scenario_bits
           [0; 0; 1; 1] eq_refl eq_refl).
Defined.

Lemma sift_no_agreement_is_empty_witness :
  (length [0; 1] <= length [Z_basis; Z_basis])%nat /\
  (length [0; 1] <= length [X_basis; X_basis])%nat /\
  (forall i, (i < length [0; 1])%nat ->
             nth_error [Z_basis; Z_basis] i <>
             nth_error [X_basis; X_basis] i) /\
  Script.sift_keys [Z_basis; Z_basis] [X_basis; X_basis] [0; 1] [] =
    Some ([], [], []) /\
  App.sift_keys [Z_basis; Z_basis] [X_basis; X_basis] [0; 1] [] =
    Some ([], []) /\
  calculate_qber [] [] = Some 0%Q /\
  classify 0 = SecureLikely.
Proof.
  assert (H1 : (length [0; 1] <= length [Z_basis; Z_basis])%nat)
    by (simpl; lia).
  assert (H2 : (length [0; 1] <= length [X_basis; X_basis])%nat)
    by (simpl; lia).
  assert (H3 : forall i, (i < length [0; 1])%nat ->
                         nth_error [Z_basis; Z_basis] i <>
                         nth_error [X_basis; X_basis] i).
  { intros [| [| i]] Hi; simpl in *; try discriminate. lia. }
  split; [exact H1 |]. split; [exact H2 |]. split; [exact H3 |].
  exact (sift_no_agreement_is_empty [Z_basis; Z_basis] [X_basis; X_basis]
           [0; 1] [] H1 H2 H3).
Defined.

Lemma qber_zero_iff_keys_equal_witness :
  length [0; 1; 1] = length [0; 0; 1] /\
  exists q, calculate_qber [0; 1; 1] [0; 0; 1] = Some q /\
            ((q == 0)%Q <-> [0; 1; 1] = [0; 0; 1]).
Proof.
  split; [reflexivity |].
  exact (qber_zero_iff_keys_equal [0; 1; 1] [0; 0; 1] eq_refl).
Defined.

Lemma qber_symmetric_witness :
  length [0; 1; 1] = length [0; 0; 1] /\
  calculate_qber [0; 1; 1] [0; 0; 1] = calculate_qber [0; 0; 1] [0; 1; 1].
Proof.
  split; [reflexivity |].
  exact (qber_symmetric [0; 1; 1] [0; 0; 1] eq_refl).
Defined.

Lemma flagged_iff_errors_exceed_witness :
  calculate_qber [0; 1; 1] [0; 0; 1] = Some (1 # 3)%Q /\
  (classify (1 # 3) = EavesdroppingSuspected <->
   3 * Z.of_nat (length [0; 1; 1]) < 20 * count_errors [0; 1; 1] [0; 0; 1]).
Proof.
  split; [reflexivity |].
  exact (flagged_iff_errors_exceed [0; 1; 1] [0; 0; 1] (1 # 3) eq_refl).
Defined.

Lemma qber_bars_within_axis_witness :
  calculate_qber [0; 1; 1] [0; 0; 1] = Some (1 # 3)%Q /\
  (0 <= fst (qber_bars (1 # 3)) <= 100)%Q /\
  (0 <= snd (qber_bars (1 # 3)) <= 100)%Q.
Proof.
  split; [reflexivity |].
  exact (qber_bars_within_axis [0; 1; 1] [0; 0; 1] (1 # 3) eq_refl).
Defined.
